(** * metslib: the model layer (model.hh) and the abstract search header
    (solution recorder, abstract search, best-ever recorder), embedded in
    Rocq.

    The C++ classes become records with their member functions next to them,
    one Rocq module per class, so that [permutation_problem.swap] reads like
    [permutation_problem::swap].  A C++ [int] is a [Z]; where the source does
    arithmetic on it the 32-bit wrap-around is written out.  A [std::vector]
    is a list accessed with stdpp's lookup and insert; an access outside the
    vector, which C++ leaves undefined, is [None]. *)

From Stdlib Require Import ZArith QArith Qminmax Lia.
From stdpp Require Import base option list.

Local Open Scope Z_scope.

(** ** Machine integers *)

Definition INT_MAX : Z := 2 ^ 31 - 1.

(** Two's complement reduction of a mathematical integer to an [int]. *)
Definition to_int (z : Z) : Z := (z + 2 ^ 31) mod 2 ^ 32 - 2 ^ 31.

(** Conversion of an [int] to the 64-bit unsigned [size_t]. *)
Definition to_size_t (z : Z) : Z := z mod 2 ^ 64.

(** Position of a [std::vector] addressed by an [int]: the subscript is
    converted to [size_type], so a negative one is never a valid position. *)
Definition at_index (v : list Z) (i : Z) : option Z :=
  if decide (0 <= i) then v !! Z.to_nat i else None.

(** ** [class sequence] *)

Module sequence.

Record t := mk { value_m : Z }.

Definition ctor (start : Z) : t := mk start.

(** [operator()]: [return value_m++;] *)
Definition call (s : t) : Z * t :=
  (value_m s, mk (to_int (value_m s + 1))).

End sequence.

(** [std::generate(first, last, gen)]: every position receives [gen()], in
    order. *)
Fixpoint generate (v : list Z) (gen : sequence.t) : list Z :=
  match v with
  | [] => []
  | _ :: v' => let '(x, gen') := sequence.call gen in x :: generate v' gen'
  end.

(** [std::vector<int>(n)] for an [int n]: [n] value-initialised elements; a
    negative [n] converts to a size no allocator grants, the constructor
    throws. *)
Definition vector_of_size (n : Z) : option (list Z) :=
  if decide (0 <= n) then Some (replicate (Z.to_nat n) 0) else None.

(** ** [class permutation_problem] *)

Module permutation_problem.

Record t := mk { pi_m : list Z }.

(** [permutation_problem(int n) : pi_m(n)
     { std::generate(pi_m.begin(), pi_m.end(), sequence(0)); }] *)
Definition ctor (n : Z) : option t :=
  v ← vector_of_size n; Some (mk (generate v (sequence.ctor 0))).

(** [size() { return pi_m.size(); }] *)
Definition size (p : t) : Z := Z.of_nat (length (pi_m p)).

(** [swap(int i, int j) { std::swap(pi_m[i], pi_m[j]); }]:
    [tmp = pi_m[i]; pi_m[i] = pi_m[j]; pi_m[j] = tmp]. *)
Definition swap (p : t) (i j : Z) : option t :=
  tmp ← at_index (pi_m p) i;
  y ← at_index (pi_m p) j;
  Some (mk (<[Z.to_nat j := tmp]> (<[Z.to_nat i := y]> (pi_m p)))).

End permutation_problem.

(** [size()] and [swap(i, j)] are virtual: code that receives a
    [permutation_problem&] calls whatever the dynamic type provides. *)
Class PermutationProblem (P : Type) := {
  pp_size : P → Z;
  pp_swap : P → Z → Z → option P
}.

#[export] Instance permutation_problem_base :
  PermutationProblem permutation_problem.t := {
  pp_size := permutation_problem.size;
  pp_swap := permutation_problem.swap
}.

(** [pi_m] holds each number of [0..n-1] exactly once. *)
Definition is_permutation (l : list Z) : Prop :=
  l ≡ₚ seqZ 0 (Z.of_nat (length l)).

(** Positions at which two vectors of the same length disagree. *)
Definition changed_positions (l l' : list Z) : list nat :=
  filter (λ i, l !! i ≠ l' !! i) (seq 0 (length l)).

(** ** [class swap_elements] and [class invert_subsequence] *)

Module swap_elements.

Record t := mk { p1 : Z; p2 : Z }.

(** [swap_elements(int from, int to)
     : p1(std::min(from,to)), p2(std::max(from,to))] *)
Definition ctor (from to : Z) : t := mk (Z.min from to) (Z.max from to).

(** [apply(s) { sol.swap(p1, p2); }] *)
Definition apply `{PermutationProblem P} (m : t) (sol : P) : option P :=
  pp_swap sol (p1 m) (p2 m).

(** [hash() const { return (p1)<<16^(p2); }]: the shift binds tighter than
    the exclusive or; both are done on [int] and the result converts to
    [size_t]. *)
Definition hash (m : t) : Z :=
  to_size_t (Z.lxor (to_int (Z.shiftl (p1 m) 16)) (p2 m)).

(** [change(int from, int to)
     { p1 = std::min(from,to); p2 = std::max(from,to); }] *)
Definition change (m : t) (from to : Z) : t :=
  mk (Z.min from to) (Z.max from to).

End swap_elements.

Module invert_subsequence.

Record t := mk { p1 : Z; p2 : Z }.

Definition ctor (from to : Z) : t := mk from to.

Definition hash (m : t) : Z :=
  to_size_t (Z.lxor (to_int (Z.shiftl (p1 m) 16)) (p2 m)).

Definition change (m : t) (from to : Z) : t := mk from to.

End invert_subsequence.

(** The moves a [mana_move&] can refer to. *)
Inductive mana_move :=
| SwapElements (m : swap_elements.t)
| InvertSubsequence (m : invert_subsequence.t).

(** Modelled from the spec: the body of [swap_elements::operator==] is not in
    model.hh (only its declaration is).  The spec gives "Equality: same
    canonical pair", and a move of another kind is never equal to a swap. *)
Definition swap_elements_eq (m : swap_elements.t) (o : mana_move) : bool :=
  match o with
  | SwapElements other =>
      bool_decide (swap_elements.p1 m = swap_elements.p1 other)
      && bool_decide (swap_elements.p2 m = swap_elements.p2 other)
  | InvertSubsequence _ => false
  end.

(** The lifetime of a [swap_elements] object: it is constructed, and then
    [change] may rewrite it any number of times. *)
Inductive swap_elements_reachable : swap_elements.t → Prop :=
| reach_ctor from to :
    swap_elements_reachable (swap_elements.ctor from to)
| reach_change m from to :
    swap_elements_reachable m →
    swap_elements_reachable (swap_elements.change m from to).

(** ** [class move_manager] *)

Module move_manager.

Record t (move : Type) := mk { moves_m : list move }.
Arguments mk {move} _.
Arguments moves_m {move} _.

(** [move_manager() : moves_m() { }] *)
Definition ctor {move} : t move := mk [].

(** [size() const { return moves_m.size(); }] *)
Definition size {move} (mm : t move) : Z := Z.of_nat (length (moves_m mm)).

(** [begin()] .. [end()]: the moves in queue order. *)
Definition iterate {move} (mm : t move) : list move := moves_m mm.

End move_manager.

(** ** [class abstract_search] *)

Module abstract_search.

(** [static const int MOVE_MADE = 0;] *)
Definition MOVE_MADE : Z := 0.
(** [static const int IMPROVEMENT_MADE = 0;] *)
Definition IMPROVEMENT_MADE : Z := 0.

(** The part of the state an observer reads. *)
Record t := mk { step_m : Z }.

(** [step() const { return step_m; }] *)
Definition step (s : t) : Z := step_m s.

End abstract_search.

(** ** Random sources

    [int_range(rng, n)], with [int_range] a [uniform_int<>] and [rng] the
    caller's generator, draws an [int] of [[0, n)] and advances the
    generator.  Distribution and engines are library code: the class keeps
    the call and the range it promises. *)
Class UniformIntSource (G : Type) := {
  int_range : G → Z → Z * G;
  int_range_bounds g n : 0 < n → 0 ≤ (int_range g n).1 < n
}.

(** The generator after [j] draws of range [n]. *)
Fixpoint after_draws `{UniformIntSource G} (j : nat) (g : G) (n : Z) : G :=
  match j with
  | O => g
  | S j' => after_draws j' (int_range g n).2 n
  end.

(** A source never stays on one number for ever: from every state, and for
    every number, some later draw is another number. *)
Definition eventually_distinct `{UniformIntSource G} (n : Z) : Prop :=
  ∀ (g : G) (v : Z), ∃ j, (int_range (after_draws j g n) n).1 ≠ v.

(** A multiplicative congruential source, [x ← 16807 x mod (2^31 - 1)], the
    draw being the remainder of the new state by the range.  It is a source
    of its own, not the reduction to the range of any library, and it is
    only ever asked for range 1. *)
Definition congruential_next (x : Z) : Z := (16807 * x) mod 2147483647.

#[export, refine] Instance congruential_source : UniformIntSource Z := {
  int_range x n := let x' := congruential_next x in (x' mod n, x')
}.
Proof. intros x n Hn. simpl. apply Z.mod_pos_bound, Hn. Defined.

(** A round-robin source: the draws go [k mod n], [(k+1) mod n], ... *)
Record round_robin := RoundRobin { rr_next : Z }.

#[export, refine] Instance round_robin_source : UniformIntSource round_robin := {
  int_range g n := (rr_next g mod n, RoundRobin (rr_next g + 1))
}.
Proof. intros g n Hn. simpl. apply Z.mod_pos_bound, Hn. Defined.

(** ** [perturbate] *)

Section random_swaps.
Context `{UniformIntSource G}.

(** [while(p1 == p2) p2 = int_range(rng, p.size());] with a bound on the
    number of turns; [None] when the bound is exhausted.  [size] is
    [p.size()], which the loop does not change. *)
Fixpoint redraw (fuel : nat) (p1 p2 size : Z) (rng : G) : option (Z * G) :=
  if decide (p1 = p2) then
    match fuel with
    | O => None
    | S fuel' =>
        let '(p2', rng') := int_range rng size in
        redraw fuel' p1 p2' size rng'
    end
  else Some (p2, rng).

(** [perturbate(permutation_problem& p, unsigned int n, rng)]:
    [for(ii = 0; ii != n; ++ii)
       { p1 = int_range(rng, p.size()); p2 = int_range(rng, p.size());
         while(p1 == p2) p2 = int_range(rng, p.size());
         p.swap(p1, p2); }] *)
Fixpoint perturbate `{PermutationProblem P}
    (fuel : nat) (p : P) (n : nat) (rng : G) : option (P * G) :=
  match n with
  | O => Some (p, rng)
  | S n' =>
      let '(p1, rng1) := int_range rng (pp_size p) in
      let '(p2, rng2) := int_range rng1 (pp_size p) in
      '(p2', rng3) ← redraw fuel p1 p2 (pp_size p) rng2;
      p' ← pp_swap p p1 p2';
      perturbate fuel p' n' rng3
  end.

End random_swaps.

(** A problem derived from [permutation_problem] whose [swap] override notes
    the arguments of each call and then runs the inherited [swap]: the hook
    the source documents ("Override this for delta evaluation"). *)
Module swap_journal.

Record t := mk { problem : permutation_problem.t; calls : list (Z * Z) }.

Definition size (p : t) : Z := permutation_problem.size (problem p).

Definition swap (p : t) (i j : Z) : option t :=
  q ← permutation_problem.swap (problem p) i j;
  Some (mk q (calls p ++ [(i, j)])).

End swap_journal.

#[export] Instance swap_journal_problem : PermutationProblem swap_journal.t := {
  pp_size := swap_journal.size;
  pp_swap := swap_journal.swap
}.

(** ** [class swap_neighborhood] *)

Module swap_neighborhood.

(** [random_generator& rng; unsigned int n;] on top of the inherited
    [moves_m]. *)
Record t (G : Type) := mk {
  base : move_manager.t swap_elements.t;
  rng : G;
  n : nat
}.
Arguments mk {G} _ _ _.
Arguments base {G} _.
Arguments rng {G} _.
Arguments n {G} _.

(** Modelled from the spec: the constructor's body is not in model.hh.
    "Parameters: a random source and a count m of moves to publish per
    refresh"; the inherited [move_manager()] starts with no moves. *)
Definition ctor {G} (r : G) (moves : nat) : t G :=
  mk move_manager.ctor r moves.

Definition size {G} (sn : t G) : Z := move_manager.size (base sn).

Section refresh.
Context `{UniformIntSource G}.

(** Modelled from the spec: the body of [randomize_move] is not in
    model.hh.  "it draws i, j uniformly in [0, size(sol)); if i == j it
    re-draws j until distinct; then sets the move's canonical
    (p1, p2)". *)
Definition randomize_move (fuel : nat) (m : swap_elements.t) (size : Z)
    (rng : G) : option (swap_elements.t * G) :=
  let '(i, rng1) := int_range rng size in
  let '(j, rng2) := int_range rng1 size in
  '(j', rng3) ← redraw fuel i j size rng2;
  Some (swap_elements.change m i j', rng3).

(** Modelled from the spec: the loop of [refresh] over the slots, "for each
    slot it draws ...": one [randomize_move] per slot, in queue order. *)
Fixpoint randomize_slots (fuel : nat) (slots : list swap_elements.t)
    (size : Z) (rng : G) : option (list swap_elements.t * G) :=
  match slots with
  | [] => Some ([], rng)
  | m :: rest =>
      '(m', rng1) ← randomize_move fuel m size rng;
      '(rest', rng2) ← randomize_slots fuel rest size rng1;
      Some (m' :: rest', rng2)
  end.

(** Modelled from the spec: the body of [refresh] is not in model.hh.
    "on refresh, it resizes its move list to exactly m swaps.  Each slot
    is either allocated once and mutated (preferred, to avoid churn) or
    reallocated.  For each slot it draws ..." *)
Definition refresh `{PermutationProblem P}
    (fuel : nat) (sn : t G) (s : P) : option (t G) :=
  let slots :=
    resize (n sn) (swap_elements.ctor 0 0) (move_manager.moves_m (base sn)) in
  '(moves, rng') ← randomize_slots fuel slots (pp_size s) (rng sn);
  Some (mk (move_manager.mk moves) rng' (n sn)).

End refresh.

End swap_neighborhood.

(** ** [class feasible_solution] and [class best_ever_solution] *)

(** [typedef double gol_type;]: the costs the recorder compares are finite
    numbers, each of them a rational. *)
Definition gol_type : Type := Q.

(** [cost_function()] and [copy_from(other)] are pure virtual: a problem
    supplies them.  After [this->copy_from(other)] the state of [this] is that
    of [other], and the cost is computed from the state. *)
Class FeasibleSolution (Sol : Type) := {
  cost_function : Sol → gol_type;
  copy_from : Sol → Sol → Sol;
  copy_from_cost this other :
    cost_function (copy_from this other) = cost_function other
}.

Module best_ever_solution.

(** [copyable_solution& best_ever_m], the one data member of the class. *)
Record t (Sol : Type) := mk { best_ever_m : Sol }.
Arguments mk {Sol} _.
Arguments best_ever_m {Sol} _.

(** [best_ever_solution(copyable_solution& best) : best_ever_m(best)] *)
Definition ctor {Sol} (best : Sol) : t Sol := mk best.


(** Modelled from the spec: the body of [accept] is not in the source
    (only its declaration is).  "[accept] compares [sol.cost] to
    [best_ever.cost]; if strictly less, it [copy_from]s the caller-owned
    best buffer from [sol] and returns true."  The class declares no member
    beside [best_ever_m] and the constructor only binds it, so a call has
    nothing to tell it whether another call came before: the comparison is
    what every call does, the first one as well. *)
Definition accept `{FeasibleSolution Sol} (r : t Sol) (sol : Sol) : t Sol * bool :=
  if Qlt_le_dec (cost_function sol) (cost_function (best_ever_m r)) then
    (mk (copy_from (best_ever_m r) sol), true)
  else (r, false).

(** [accept(s_1); ...; accept(s_k)]: the recorder afterwards and what each
    call returned. *)
Fixpoint accept_all `{FeasibleSolution Sol} (r : t Sol) (sols : list Sol)
    : t Sol * list bool :=
  match sols with
  | [] => (r, [])
  | s :: rest =>
      let '(r1, b) := accept r s in
      let '(r2, bs) := accept_all r1 rest in
      (r2, b :: bs)
  end.

End best_ever_solution.


(** A solution that is nothing but its cost. *)
#[export, refine] Instance bare_cost : FeasibleSolution Q := {
  cost_function c := c;
  copy_from _ other := other
}.
Proof. reflexivity. Defined.

(** A pair of arguments of [swap]: two distinct positions of a vector of
    size [n]. *)
Definition distinct_positions (n : Z) (c : Z * Z) : Prop :=
  c.1 ≠ c.2 ∧ 0 ≤ c.1 < n ∧ 0 ≤ c.2 < n.

(** The positions a sequence of [swap] calls touches, two for each call. *)
Fixpoint touched_positions (calls : list (Z * Z)) : list nat :=
  match calls with
  | [] => []
  | (i, j) :: rest => Z.to_nat i :: Z.to_nat j :: touched_positions rest
  end.

(** The life of a [permutation_problem] made for [n] numbers: it is
    constructed by [permutation_problem(n)], and then [swap] and
    [perturbate] are what changes [pi_m]. *)
Inductive permutation_problem_reachable (n : Z) :
  permutation_problem.t → Prop :=
| problem_new p :
    permutation_problem.ctor n = Some p →
    permutation_problem_reachable n p
| problem_swap p i j p' :
    permutation_problem_reachable n p →
    permutation_problem.swap p i j = Some p' →
    permutation_problem_reachable n p'
| problem_perturbate `{UniformIntSource G} p fuel k (rng : G) p' rng' :
    permutation_problem_reachable n p →
    perturbate fuel p k rng = Some (p', rng') →
    permutation_problem_reachable n p'.

(** [p.swap(i_1, j_1); ...; p.swap(i_k, j_k);] *)
Fixpoint swap_all (p : permutation_problem.t) (calls : list (Z * Z))
    : option permutation_problem.t :=
  match calls with
  | [] => Some p
  | (i, j) :: rest => p' ← permutation_problem.swap p i j; swap_all p' rest
  end.

(** * Properties *)

(** ** Vectors and swaps *)

Lemma to_int_small z : - 2 ^ 31 ≤ z < 2 ^ 31 → to_int z = z.
Proof.
  intros Hz. unfold to_int.
  rewrite Z.mod_small by lia. lia.
Qed.

Lemma at_index_lookup v i x :
  at_index v i = Some x ↔ 0 ≤ i ∧ v !! Z.to_nat i = Some x.
Proof.
  unfold at_index. destruct (decide (0 ≤ i)); [tauto|].
  split; [discriminate|]. intros [? _]. lia.
Qed.

Lemma at_index_in_range v i :
  0 ≤ i < Z.of_nat (length v) → ∃ x, at_index v i = Some x.
Proof.
  intros Hi.
  destruct (lookup_lt_is_Some_2 v (Z.to_nat i)) as [x Hx]; [lia|].
  exists x. apply at_index_lookup. split; [lia|done].
Qed.

Lemma at_index_range v i x :
  at_index v i = Some x → 0 ≤ i < Z.of_nat (length v).
Proof.
  intros [Hi Hx]%at_index_lookup. apply lookup_lt_Some in Hx. lia.
Qed.

(** Overwriting one position trades the old entry for the new one. *)
Lemma insert_trade (l : list Z) i x y :
  l !! i = Some x → x :: <[i:=y]> l ≡ₚ y :: l.
Proof.
  intros Hx.
  rewrite insert_take_drop by (by eapply lookup_lt_Some).
  rewrite <- (take_drop_middle l i x Hx) at 3.
  rewrite <- !Permutation_middle. apply perm_swap.
Qed.

Lemma exchange_Permutation (l : list Z) i j x y :
  l !! i = Some x → l !! j = Some y →
  <[j:=x]> (<[i:=y]> l) ≡ₚ l.
Proof.
  intros Hx Hy.
  destruct (decide (i = j)) as [->|Hij].
  - rewrite list_insert_insert_eq. assert (x = y) as -> by congruence.
    by rewrite list_insert_id.
  - apply (Permutation_cons_inv (a:=y)).
    rewrite (insert_trade (<[i:=y]> l) j y x).
    + apply (insert_trade l i x y Hx).
    + by rewrite list_lookup_insert_ne.
Qed.

Lemma exchange_lookup (l : list Z) i j x y k :
  l !! i = Some x → l !! j = Some y →
  <[j:=x]> (<[i:=y]> l) !! k =
    if decide (k = j) then Some x
    else if decide (k = i) then Some y else l !! k.
Proof.
  intros Hx Hy.
  assert (i < length l)%nat by (by eapply lookup_lt_Some).
  assert (j < length l)%nat by (by eapply lookup_lt_Some).
  destruct (decide (k = j)) as [->|Hkj].
  - rewrite list_lookup_insert_eq; [done|]. by rewrite length_insert.
  - rewrite list_lookup_insert_ne by done.
    destruct (decide (k = i)) as [->|Hki].
    + by rewrite list_lookup_insert_eq.
    + by rewrite list_lookup_insert_ne.
Qed.

(** What [permutation_problem::swap] does to [pi_m], position by
    position. *)
Lemma swap_Some p i j :
  0 ≤ i < permutation_problem.size p →
  0 ≤ j < permutation_problem.size p →
  ∃ x y,
    permutation_problem.pi_m p !! Z.to_nat i = Some x ∧
    permutation_problem.pi_m p !! Z.to_nat j = Some y ∧
    permutation_problem.swap p i j =
      Some (permutation_problem.mk
              (<[Z.to_nat j := x]>
                 (<[Z.to_nat i := y]> (permutation_problem.pi_m p)))).
Proof.
  unfold permutation_problem.size, permutation_problem.swap. intros Hi Hj.
  destruct (at_index_in_range _ _ Hi) as [x Hx].
  destruct (at_index_in_range _ _ Hj) as [y Hy].
  exists x, y. rewrite Hx, Hy. simpl.
  apply at_index_lookup in Hx as [_ Hx]. apply at_index_lookup in Hy as [_ Hy].
  done.
Qed.

Lemma swap_inv p i j p' :
  permutation_problem.swap p i j = Some p' →
  (0 ≤ i < permutation_problem.size p) ∧ (0 ≤ j < permutation_problem.size p).
Proof.
  unfold permutation_problem.swap, permutation_problem.size. intros Hs.
  destruct (at_index _ i) as [x|] eqn:Hx; [|discriminate].
  destruct (at_index _ j) as [y|] eqn:Hy; [|discriminate].
  split; eauto using at_index_range.
Qed.

Lemma swap_length p i j p' :
  permutation_problem.swap p i j = Some p' →
  length (permutation_problem.pi_m p') = length (permutation_problem.pi_m p).
Proof.
  intros Hs. destruct (swap_inv _ _ _ _ Hs) as [Hi Hj].
  destruct (swap_Some p i j Hi Hj) as (x & y & _ & _ & Heq).
  rewrite Heq in Hs. injection Hs as <-. simpl. by rewrite !length_insert.
Qed.

Lemma swap_Permutation p i j p' :
  permutation_problem.swap p i j = Some p' →
  permutation_problem.pi_m p' ≡ₚ permutation_problem.pi_m p.
Proof.
  intros Hs. destruct (swap_inv _ _ _ _ Hs) as [Hi Hj].
  destruct (swap_Some p i j Hi Hj) as (x & y & Hx & Hy & Heq).
  rewrite Heq in Hs. injection Hs as <-. simpl.
  by apply exchange_Permutation.
Qed.

Lemma swap_is_permutation p i j p' :
  is_permutation (permutation_problem.pi_m p) →
  permutation_problem.swap p i j = Some p' →
  is_permutation (permutation_problem.pi_m p').
Proof.
  unfold is_permutation. intros Hp Hs.
  rewrite (swap_length _ _ _ _ Hs), (swap_Permutation _ _ _ _ Hs). exact Hp.
Qed.

(** Positions other than the two arguments keep their entry. *)
Lemma swap_elsewhere p i j p' k :
  permutation_problem.swap p i j = Some p' →
  k ≠ Z.to_nat i → k ≠ Z.to_nat j →
  permutation_problem.pi_m p' !! k = permutation_problem.pi_m p !! k.
Proof.
  intros Hs Hki Hkj. destruct (swap_inv _ _ _ _ Hs) as [Hi Hj].
  destruct (swap_Some p i j Hi Hj) as (x & y & Hx & Hy & Heq).
  rewrite Heq in Hs. injection Hs as <-. simpl.
  rewrite (exchange_lookup _ _ _ _ _ k Hx Hy).
  by rewrite !decide_False.
Qed.

Lemma swap_twice p i j p' :
  permutation_problem.swap p i j = Some p' →
  permutation_problem.swap p' i j = Some p.
Proof.
  intros Hs. destruct (swap_inv _ _ _ _ Hs) as [Hi Hj].
  pose proof (swap_length _ _ _ _ Hs) as Hlen.
  destruct (swap_Some p i j Hi Hj) as (x & y & Hx & Hy & Heq).
  destruct (swap_Some p' i j) as (x' & y' & Hx' & Hy' & Heq');
    [unfold permutation_problem.size in *; lia..|].
  rewrite Heq'. f_equal.
  rewrite Heq in Hs. injection Hs as <-. simpl in *.
  destruct p as [l]. simpl in *. f_equal.
  rewrite (exchange_lookup _ _ _ _ _ _ Hx Hy) in Hx'.
  rewrite (exchange_lookup _ _ _ _ _ _ Hx Hy) in Hy'.
  apply list_eq. intros k.
  rewrite list_lookup_insert, list_lookup_insert, !length_insert.
  rewrite (exchange_lookup _ _ _ _ _ k Hx Hy).
  apply lookup_lt_Some in Hx as Hli. apply lookup_lt_Some in Hy as Hlj.
  clear Heq Heq' Hi Hj Hlen.
  generalize dependent (Z.to_nat i). generalize dependent (Z.to_nat j).
  intros b a ?????.
  repeat case_decide; destruct_and?; simplify_eq; congruence || lia.
Qed.

(** ** The step codes *)

(** C1 (the code departs from the claim): the two published step codes are
    the same integer.  [MOVE_MADE] and [IMPROVEMENT_MADE] are both declared as
    0, so a search that publishes either of them leaves the same value for
    [step()] to return, and an observer cannot tell a plain move from an
    improvement. *)
Theorem step_codes_coincide :
  abstract_search.MOVE_MADE = 0 ∧
  abstract_search.IMPROVEMENT_MADE = 0 ∧
  abstract_search.step (abstract_search.mk abstract_search.MOVE_MADE) =
    abstract_search.step (abstract_search.mk abstract_search.IMPROVEMENT_MADE).
Proof. repeat split. Qed.

(** ** Identity of swap moves *)

Lemma swap_elements_ctor_sym a b :
  swap_elements.ctor a b = swap_elements.ctor b a.
Proof.
  unfold swap_elements.ctor. by rewrite Z.min_comm, Z.max_comm.
Qed.

(** C2: for all integers [a] and [b], [swap_elements(a,b)] and
    [swap_elements(b,a)] compare equal and have the same hash: the
    constructor stores [p1 = min], [p2 = max], and the hash is
    [(p1 << 16) ^ p2] on that pair. *)
Theorem swap_elements_order_insensitive (a b : Z) :
  swap_elements_eq (swap_elements.ctor a b)
    (SwapElements (swap_elements.ctor b a)) = true ∧
  swap_elements.hash (swap_elements.ctor a b) =
    swap_elements.hash (swap_elements.ctor b a) ∧
  swap_elements.p1 (swap_elements.ctor a b) = Z.min a b ∧
  swap_elements.p2 (swap_elements.ctor a b) = Z.max a b ∧
  swap_elements.hash (swap_elements.ctor a b) =
    to_size_t (Z.lxor (to_int (Z.shiftl (Z.min a b) 16)) (Z.max a b)).
Proof.
  rewrite (swap_elements_ctor_sym b a). repeat split.
  simpl. by rewrite !bool_decide_eq_true_2.
Qed.

(** C10: a [swap_elements] keeps [p1 <= p2] through its whole life.  The
    constructor and [change] both store the least argument in [p1] and the
    greatest in [p2], so after either the order of the two arguments is
    forgotten, and every object reached by a construction followed by any
    number of [change]s is in canonical order. *)
Theorem swap_elements_canonical :
  (∀ from to,
     swap_elements.p1 (swap_elements.ctor from to) = Z.min from to ∧
     swap_elements.p2 (swap_elements.ctor from to) = Z.max from to) ∧
  (∀ m from to,
     swap_elements.p1 (swap_elements.change m from to) = Z.min from to ∧
     swap_elements.p2 (swap_elements.change m from to) = Z.max from to) ∧
  (∀ m, swap_elements_reachable m → swap_elements.p1 m ≤ swap_elements.p2 m) ∧
  (∀ m from to,
     swap_elements.change m from to = swap_elements.change m to from ∧
     swap_elements.hash (swap_elements.change m from to) =
       swap_elements.hash (swap_elements.change m to from) ∧
     swap_elements_eq (swap_elements.change m from to)
       (SwapElements (swap_elements.change m to from)) = true).
Proof.
  split; [done|]. split; [done|]. split.
  - induction 1; simpl; lia.
  - intros m from to.
    assert (swap_elements.change m from to = swap_elements.change m to from)
      as Heq.
    { unfold swap_elements.change. by rewrite Z.min_comm, Z.max_comm. }
    rewrite Heq. repeat split.
    simpl. by rewrite !bool_decide_eq_true_2.
Qed.

Lemma swap_elements_canonical_witness :
  swap_elements_reachable
    (swap_elements.change (swap_elements.ctor 5 2) 9 7) ∧
  swap_elements.p1 (swap_elements.change (swap_elements.ctor 5 2) 9 7) ≤
    swap_elements.p2 (swap_elements.change (swap_elements.ctor 5 2) 9 7).
Proof.
  assert (swap_elements_reachable
            (swap_elements.change (swap_elements.ctor 5 2) 9 7)) as Hr
    by (apply reach_change, reach_ctor).
  split; [exact Hr|].
  exact (proj1 (proj2 (proj2 swap_elements_canonical)) _ Hr).
Defined.

(** ** The permutation problem *)

Lemma generate_sequence v start :
  0 ≤ start → start + Z.of_nat (length v) ≤ 2 ^ 31 →
  generate v (sequence.ctor start) = seqZ start (Z.of_nat (length v)).
Proof.
  revert start. induction v as [|x v IH]; intros start Hs Hlen.
  - done.
  - cbn [generate sequence.call sequence.ctor sequence.value_m length].
    rewrite seqZ_cons by lia. f_equal.
    replace (Z.pred (Z.of_nat (S (length v)))) with (Z.of_nat (length v))
      by lia.
    destruct v as [|y v].
    + done.
    + cbn [length] in *. rewrite to_int_small by lia.
      apply (IH (start + 1)); cbn [length]; lia.
Qed.

(** C7: for every [int n >= 0], [permutation_problem(n)] sets [pi_m] to
    [0, 1, ..., n-1], and [size()] is [n]. *)
Theorem permutation_problem_ctor_identity (n : Z) :
  0 ≤ n ≤ INT_MAX →
  ∃ p, permutation_problem.ctor n = Some p ∧
       permutation_problem.pi_m p = seqZ 0 n ∧
       permutation_problem.size p = n.
Proof.
  intros [Hn Hmax]. unfold INT_MAX in Hmax.
  unfold permutation_problem.ctor, vector_of_size.
  rewrite decide_True by done. simpl.
  eexists. split; [done|].
  unfold permutation_problem.size. simpl.
  rewrite generate_sequence; rewrite ?length_replicate, ?Z2Nat.id; try lia.
  split; [done|]. rewrite length_seqZ. lia.
Qed.

Lemma permutation_problem_ctor_identity_witness :
  0 ≤ 4 ≤ INT_MAX ∧
  ∃ p, permutation_problem.ctor 4 = Some p ∧
       permutation_problem.pi_m p = seqZ 0 4 ∧
       permutation_problem.size p = 4.
Proof.
  split; [unfold INT_MAX; lia|].
  apply (permutation_problem_ctor_identity 4). unfold INT_MAX. lia.
Defined.

(** C6: when [pi_m] is a permutation of [0..n-1] and [i], [j] are positions
    of it, [swap(i, j)] leaves a permutation of [0..n-1]: the entries are the
    same ones, rearranged, and the size is the same. *)
Theorem swap_preserves_permutation (p : permutation_problem.t) (i j : Z) :
  is_permutation (permutation_problem.pi_m p) →
  0 ≤ i < permutation_problem.size p →
  0 ≤ j < permutation_problem.size p →
  ∃ p', permutation_problem.swap p i j = Some p' ∧
        is_permutation (permutation_problem.pi_m p') ∧
        permutation_problem.pi_m p' ≡ₚ permutation_problem.pi_m p ∧
        permutation_problem.size p' = permutation_problem.size p.
Proof.
  intros Hp Hi Hj.
  destruct (swap_Some p i j Hi Hj) as (x & y & _ & _ & Hs).
  eexists. split; [exact Hs|].
  split; [by eapply swap_is_permutation|].
  split; [by eapply swap_Permutation|].
  unfold permutation_problem.size. by rewrite (swap_length _ _ _ _ Hs).
Qed.

Lemma swap_preserves_permutation_witness :
  is_permutation [2; 0; 1] ∧
  0 ≤ 0 < permutation_problem.size (permutation_problem.mk [2; 0; 1]) ∧
  0 ≤ 2 < permutation_problem.size (permutation_problem.mk [2; 0; 1]) ∧
  ∃ p', permutation_problem.swap (permutation_problem.mk [2; 0; 1]) 0 2
          = Some p' ∧
        is_permutation (permutation_problem.pi_m p') ∧
        permutation_problem.pi_m p' ≡ₚ [2; 0; 1] ∧
        permutation_problem.size p' = 3.
Proof.
  assert (is_permutation [2; 0; 1]) as Hperm.
  { unfold is_permutation. simpl. change (seqZ 0 3) with [0; 1; 2].
    etransitivity; [apply perm_swap|]. apply perm_skip, perm_swap. }
  assert (0 ≤ 0 < permutation_problem.size (permutation_problem.mk [2; 0; 1]))
    as H0 by (unfold permutation_problem.size; simpl; lia).
  assert (0 ≤ 2 < permutation_problem.size (permutation_problem.mk [2; 0; 1]))
    as H2 by (unfold permutation_problem.size; simpl; lia).
  repeat (split; [assumption|]).
  exact (swap_preserves_permutation
           (permutation_problem.mk [2; 0; 1]) 0 2 Hperm H0 H2).
Defined.

(** C8: on the size-4 problem [0,1,2,3], [swap_elements(1,3)] gives
    [0,3,2,1] and [swap_elements(3,1)], the same move, gives [0,1,2,3] back;
    and on any problem, a swap move whose two positions are positions of the
    problem, applied twice, restores the problem. *)
Theorem swap_elements_apply_twice :
  (∃ p0 p1,
     permutation_problem.ctor 4 = Some p0 ∧
     permutation_problem.pi_m p0 = [0; 1; 2; 3] ∧
     swap_elements.apply (swap_elements.ctor 1 3) p0 = Some p1 ∧
     permutation_problem.pi_m p1 = [0; 3; 2; 1] ∧
     swap_elements.apply (swap_elements.ctor 3 1) p1 = Some p0) ∧
  (∀ (m : swap_elements.t) (p : permutation_problem.t),
     0 ≤ swap_elements.p1 m < permutation_problem.size p →
     0 ≤ swap_elements.p2 m < permutation_problem.size p →
     ∃ p', swap_elements.apply m p = Some p' ∧
           swap_elements.apply m p' = Some p).
Proof.
  split.
  - exists (permutation_problem.mk [0; 1; 2; 3]),
           (permutation_problem.mk [0; 3; 2; 1]).
    repeat split.
  - intros m p H1 H2. unfold swap_elements.apply. simpl.
    destruct (swap_Some p _ _ H1 H2) as (x & y & _ & _ & Hs).
    eexists. split; [exact Hs|]. by apply swap_twice.
Qed.

Lemma swap_elements_apply_twice_witness :
  0 ≤ swap_elements.p1 (swap_elements.ctor 4 0) <
    permutation_problem.size (permutation_problem.mk [3; 1; 4; 0; 2]) ∧
  0 ≤ swap_elements.p2 (swap_elements.ctor 4 0) <
    permutation_problem.size (permutation_problem.mk [3; 1; 4; 0; 2]) ∧
  ∃ p', swap_elements.apply (swap_elements.ctor 4 0)
          (permutation_problem.mk [3; 1; 4; 0; 2]) = Some p' ∧
        swap_elements.apply (swap_elements.ctor 4 0) p' =
          Some (permutation_problem.mk [3; 1; 4; 0; 2]).
Proof.
  assert (0 ≤ swap_elements.p1 (swap_elements.ctor 4 0) <
    permutation_problem.size (permutation_problem.mk [3; 1; 4; 0; 2])) as H1
    by (unfold permutation_problem.size; simpl; lia).
  assert (0 ≤ swap_elements.p2 (swap_elements.ctor 4 0) <
    permutation_problem.size (permutation_problem.mk [3; 1; 4; 0; 2])) as H2
    by (unfold permutation_problem.size; simpl; lia).
  repeat (split; [assumption|]).
  exact (proj2 swap_elements_apply_twice (swap_elements.ctor 4 0)
           (permutation_problem.mk [3; 1; 4; 0; 2]) H1 H2).
Defined.

(** ** The move manager *)

(** C9: a default-constructed [move_manager] holds no move and its [size()]
    is 0; and for every manager [size()] is the number of moves in its
    queue, the ones [begin()] .. [end()] run over. *)
Theorem move_manager_size {move : Type} :
  move_manager.moves_m (@move_manager.ctor move) = [] ∧
  move_manager.size (@move_manager.ctor move) = 0 ∧
  (∀ mm : move_manager.t move,
     move_manager.size mm = Z.of_nat (length (move_manager.iterate mm))) ∧
  (∀ (mm : move_manager.t move) (m : move),
     move_manager.size
       (move_manager.mk (move_manager.moves_m mm ++ [m])) =
     move_manager.size mm + 1).
Proof.
  repeat split.
  intros mm m. unfold move_manager.size. simpl.
  rewrite length_app. simpl. lia.
Qed.

(** ** The best-ever recorder *)

Section best_ever.
Context `{FeasibleSolution Sol}.

Implicit Types (r : best_ever_solution.t Sol) (s : Sol).




End best_ever.







(** Over a buffer that starts above every cost offered, the stream of costs
    10, 12, 7.5, 7.5, 6 is answered true, false, true, false, true, and the
    best cost left is 6. *)
Example best_ever_stream :
  best_ever_solution.accept_all (best_ever_solution.ctor (100 : Q))
    [10; 12; 15 # 2; 15 # 2; 6]%Q
  = (best_ever_solution.mk 6%Q, [true; false; true; false; true]).
Proof. reflexivity. Qed.

(** ** Drawing two distinct positions *)

Section redraw_facts.
Context `{UniformIntSource G}.

Lemma redraw_mono fuel fuel' p1 p2 size (rng : G) r :
  redraw fuel p1 p2 size rng = Some r → (fuel ≤ fuel')%nat →
  redraw fuel' p1 p2 size rng = Some r.
Proof.
  revert fuel' p2 rng.
  induction fuel as [|fuel IH]; intros fuel' p2 rng Hr Hle.
  - simpl in Hr. destruct fuel'; simpl; by destruct (decide (p1 = p2)).
  - destruct fuel' as [|fuel']; [lia|].
    simpl in *. destruct (decide (p1 = p2)); [|done].
    destruct (int_range rng size) as [p2' rng'].
    apply IH; [done|lia].
Qed.

(** The loop is left only with [p2] other than [p1]. *)
Lemma redraw_distinct fuel p1 size : ∀ p2 (rng : G) r,
  redraw fuel p1 p2 size rng = Some r → r.1 ≠ p1.
Proof.
  induction fuel as [|fuel IH]; intros p2 rng r Hr; simpl in Hr.
  - destruct (decide (p1 = p2)); [done|]. by simplify_eq.
  - destruct (decide (p1 = p2)); [|by simplify_eq].
    destruct (int_range rng size) as [p2' rng']. by eapply IH.
Qed.

(** What it leaves in [p2] is a position when what it found there was. *)
Lemma redraw_range fuel p1 size : ∀ p2 (rng : G) r,
  0 < size → 0 ≤ p2 < size →
  redraw fuel p1 p2 size rng = Some r → 0 ≤ r.1 < size.
Proof.
  induction fuel as [|fuel IH]; intros p2 rng r Hsize Hp2 Hr; simpl in Hr.
  - destruct (decide (p1 = p2)); [done|]. by simplify_eq.
  - destruct (decide (p1 = p2)); [|by simplify_eq].
    pose proof (int_range_bounds rng size Hsize) as Hb.
    destruct (int_range rng size) as [p2' rng']. by eapply IH.
Qed.

Lemma redraw_same_terminates p1 size j : ∀ rng : G,
  (int_range (after_draws j rng size) size).1 ≠ p1 →
  ∃ fuel r, redraw fuel p1 p1 size rng = Some r.
Proof.
  induction j as [|j IH]; intros rng Hj; simpl in Hj.
  - exists 1%nat. simpl. rewrite decide_True by done.
    destruct (int_range rng size) as [v rng']. simpl in *.
    rewrite decide_False by done. eauto.
  - destruct (IH _ Hj) as (fuel & r & Hr).
    destruct (int_range rng size) as [v rng'] eqn:Hd. simpl in *.
    destruct (decide (p1 = v)) as [->|Hne].
    + exists (S fuel), r. simpl. rewrite decide_True by done. by rewrite Hd.
    + exists 1%nat. simpl. rewrite decide_True by done. rewrite Hd. simpl.
      rewrite decide_False by done. eauto.
Qed.

Lemma redraw_terminates p1 p2 size (rng : G) :
  eventually_distinct size →
  ∃ fuel r, redraw fuel p1 p2 size rng = Some r.
Proof.
  intros Hfair. destruct (decide (p1 = p2)) as [<-|Hne].
  - destruct (Hfair rng p1) as [j Hj]. by eapply redraw_same_terminates.
  - exists 0%nat. simpl. rewrite decide_False by done. eauto.
Qed.

(** Two draws and the re-drawing loop: with enough turns they end on two
    distinct positions. *)
Lemma draw_two_distinct size (rng : G) :
  0 < size → eventually_distinct size →
  let d1 := int_range rng size in
  let d2 := int_range d1.2 size in
  ∃ fuel r, redraw fuel d1.1 d2.1 size d2.2 = Some r ∧
            r.1 ≠ d1.1 ∧ 0 ≤ d1.1 < size ∧ 0 ≤ r.1 < size.
Proof.
  intros Hsize Hfair d1 d2.
  destruct (redraw_terminates d1.1 d2.1 size d2.2 Hfair) as (fuel & r & Hr).
  exists fuel, r. split; [done|].
  split; [by eapply redraw_distinct|].
  split; [apply (int_range_bounds rng size Hsize)|].
  eapply redraw_range; [done| |done].
  apply (int_range_bounds d1.2 size Hsize).
Qed.

(** *** [perturbate] *)

Lemma perturbate_S `{PermutationProblem P} fuel (p : P) k (rng : G) :
  perturbate fuel p (S k) rng =
    (let d1 := int_range rng (pp_size p) in
     let d2 := int_range d1.2 (pp_size p) in
     r ← redraw fuel d1.1 d2.1 (pp_size p) d2.2;
     p' ← pp_swap p d1.1 r.1;
     perturbate fuel p' k r.2).
Proof.
  simpl. destruct (int_range rng (pp_size p)) as [a g1]. simpl.
  destruct (int_range g1 (pp_size p)) as [b g2]. simpl.
  by destruct (redraw fuel a b (pp_size p) g2) as [[b' g3]|].
Qed.

Lemma perturbate_mono `{PermutationProblem P} fuel fuel' (p : P) k (rng : G) r :
  perturbate fuel p k rng = Some r → (fuel ≤ fuel')%nat →
  perturbate fuel' p k rng = Some r.
Proof.
  revert p rng. induction k as [|k IH]; intros p rng Hr Hle; [done|].
  rewrite perturbate_S in Hr. rewrite perturbate_S. cbv zeta in *.
  destruct (redraw fuel _ _ _ _) as [d|] eqn:Hd; [|done].
  rewrite (redraw_mono _ _ _ _ _ _ _ Hd Hle). simpl in *.
  destruct (pp_swap p _ _) as [p'|]; [|done]. simpl in *. by apply IH.
Qed.

(** The plain run is the journalled run with the journal left out. *)
Lemma perturbate_journal_erase fuel k :
  ∀ (p : permutation_problem.t) (cs : list (Z * Z)) (rng : G),
  perturbate fuel p k rng =
    prod_map swap_journal.problem id
      <$> perturbate fuel (swap_journal.mk p cs) k rng.
Proof.
  induction k as [|k IH]; intros p cs rng; [done|].
  rewrite !perturbate_S. cbv zeta.
  change (pp_size (swap_journal.mk p cs)) with (pp_size p).
  destruct (redraw fuel _ _ _ _) as [d|]; [|done]. simpl.
  unfold swap_journal.swap. simpl.
  destruct (permutation_problem.swap _ _ _) as [q|]; [|done]. simpl.
  apply IH.
Qed.

(** Whenever the journalled run returns, it called [swap] once per round,
    on two distinct positions, and only the positions named in the journal
    can have another entry. *)
Lemma perturbate_journal_post fuel k :
  ∀ (p : permutation_problem.t) (cs : list (Z * Z)) (rng : G) j' rng',
  perturbate fuel (swap_journal.mk p cs) k rng = Some (j', rng') →
  ∃ sw,
    swap_journal.calls j' = cs ++ sw ∧
    length sw = k ∧
    Forall (distinct_positions (permutation_problem.size p)) sw ∧
    length (permutation_problem.pi_m (swap_journal.problem j')) =
      length (permutation_problem.pi_m p) ∧
    permutation_problem.pi_m (swap_journal.problem j')
      ≡ₚ permutation_problem.pi_m p ∧
    (∀ i, i ∉ touched_positions sw →
       permutation_problem.pi_m (swap_journal.problem j') !! i =
         permutation_problem.pi_m p !! i).
Proof.
  induction k as [|k IH]; intros p cs rng j' rng' Hr.
  - simpl in Hr. simplify_eq. exists []. simpl. rewrite app_nil_r.
    repeat split; done.
  - rewrite perturbate_S in Hr. cbv zeta in Hr.
    change (pp_size (swap_journal.mk p cs))
      with (permutation_problem.size p) in Hr.
    set (a := (int_range rng (permutation_problem.size p)).1) in *.
    destruct (redraw fuel _ _ _ _) as [r|] eqn:Hd; [|done]. simpl in Hr.
    unfold swap_journal.swap in Hr. simpl in Hr.
    destruct (permutation_problem.swap p a r.1) as [p1|] eqn:Hs; [|done].
    simpl in Hr.
    pose proof (swap_length _ _ _ _ Hs) as Hlen1.
    assert (permutation_problem.size p1 = permutation_problem.size p)
      as Hsize1 by (unfold permutation_problem.size; by rewrite Hlen1).
    destruct (IH _ _ _ _ _ Hr) as (sw & Hcalls & Hk & Hsw & Hlen & Hperm & Hkeep).
    exists ((a, r.1) :: sw). repeat split.
    + by rewrite Hcalls, <- app_assoc.
    + simpl. by rewrite Hk.
    + constructor; [|by rewrite <- Hsize1].
      destruct (swap_inv _ _ _ _ Hs) as [Ha Hb].
      apply redraw_distinct in Hd.
      unfold distinct_positions. simpl. split; [congruence|done].
    + by rewrite Hlen.
    + by rewrite Hperm, (swap_Permutation _ _ _ _ Hs).
    + intros i Hi. simpl in Hi.
      apply not_elem_of_cons in Hi as [Hia Hi].
      apply not_elem_of_cons in Hi as [Hib Hi].
      rewrite (Hkeep i Hi). by apply (swap_elsewhere _ _ _ _ _ Hs).
Qed.

(** With enough turns for the re-drawing loops, the run returns. *)
Lemma perturbate_terminates k : ∀ (p : permutation_problem.t) (rng : G),
  2 ≤ permutation_problem.size p →
  eventually_distinct (permutation_problem.size p) →
  ∃ fuel r, perturbate fuel p k rng = Some r.
Proof.
  induction k as [|k IH]; intros p rng Hsize Hfair.
  - exists 0%nat. simpl. eauto.
  - destruct (draw_two_distinct (permutation_problem.size p) rng)
      as (f1 & r & Hr & Hne & Ha & Hb); [lia|done|].
    destruct (swap_Some p _ _ Ha Hb) as (x & y & _ & _ & Hs).
    set (p1 := permutation_problem.mk _) in Hs.
    assert (permutation_problem.size p1 = permutation_problem.size p)
      as Hsize1.
    { unfold permutation_problem.size. by rewrite (swap_length _ _ _ _ Hs). }
    destruct (IH p1 r.2) as (f2 & r' & Hrun); [by rewrite Hsize1..|].
    exists (f1 `max` f2)%nat, r'.
    rewrite perturbate_S. cbv zeta.
    change (pp_size p) with (permutation_problem.size p).
    rewrite (redraw_mono _ (f1 `max` f2)%nat _ _ _ _ _ Hr) by lia.
    simpl. rewrite Hs. simpl.
    apply (perturbate_mono _ _ _ _ _ _ Hrun). lia.
Qed.

End redraw_facts.

Lemma length_touched_positions calls :
  length (touched_positions calls) = (2 * length calls)%nat.
Proof.
  induction calls as [|[i j] calls IH]; simpl; [done|]. rewrite IH. lia.
Qed.

(** Positions that changed are among the positions that were touched. *)
Lemma changed_positions_bound (l l' : list Z) (touched : list nat) :
  (∀ i, i ∉ touched → l' !! i = l !! i) →
  (length (changed_positions l l') ≤ length touched)%nat.
Proof.
  intros Hkeep. apply submseteq_length, NoDup_submseteq.
  - apply NoDup_filter, NoDup_seq.
  - intros i [Hi _]%list_elem_of_filter.
    destruct (decide (i ∈ touched)) as [|Hout]; [done|].
    by rewrite (Hkeep i Hout) in Hi.
Qed.

(** The round-robin source never draws the same number twice in a row. *)
Lemma round_robin_eventually_distinct (n : Z) :
  2 ≤ n → eventually_distinct (G := round_robin) n.
Proof.
  intros Hn [x] v.
  destruct (decide (x mod n = v)) as [Hx|Hx].
  - exists 1%nat. simpl. intros Hx1.
    pose proof (Z.div_mod x n ltac:(lia)) as E1.
    pose proof (Z.div_mod (x + 1) n ltac:(lia)) as E2.
    rewrite Hx in E1. rewrite Hx1 in E2.
    assert (n * ((x + 1) `div` n - x `div` n) = 1) as Hd by lia.
    apply Z.eq_mul_1 in Hd. lia.
  - by exists 0%nat.
Qed.

(** C5 (counterexample): on the problem of size 1, [perturbate] with one
    swap to make never returns, whatever number of turns the re-drawing loop
    is given: both draws are position 0, the only one there is, and no
    re-draw is distinct from it. *)
Lemma perturbate_size_one_diverges :
  is_permutation [0] ∧
  ∀ fuel,
    perturbate (G := Z) fuel (permutation_problem.mk [0]) 1 1 = None.
Proof.
  split; [by vm_compute|].
  intros fuel. rewrite perturbate_S. cbv zeta.
  change (pp_size (permutation_problem.mk [0])) with 1.
  cbn [int_range congruential_source fst snd]. rewrite !Z.mod_1_r.
  assert (∀ x, redraw (G := Z) fuel 0 0 1 x = None) as ->; [|done].
  induction fuel as [|fuel IH]; intros x; [done|].
  cbn [redraw int_range congruential_source]. rewrite Z.mod_1_r. apply IH.
Qed.

(** C5 (amended): for every problem whose [pi_m] is a permutation of
    [0..n-1], every [k] and every random source: whenever
    [perturbate(P, k, rng)] returns, it has called [swap] exactly [k] times,
    each time on two distinct positions; [pi_m] is still a permutation of
    [0..n-1]; and at most [2k] positions of it differ from what they were.
    It does return when [n >= 2] and the source never stays on one position
    for ever. *)
Theorem perturbate_swaps `{UniformIntSource G}
    (p : permutation_problem.t) (k : nat) (rng : G) :
  is_permutation (permutation_problem.pi_m p) →
  (∀ fuel p' rng',
     perturbate fuel p k rng = Some (p', rng') →
     ∃ journal,
       perturbate fuel (swap_journal.mk p []) k rng =
         Some (swap_journal.mk p' journal, rng') ∧
       length journal = k ∧
       Forall (distinct_positions (permutation_problem.size p)) journal ∧
       is_permutation (permutation_problem.pi_m p') ∧
       permutation_problem.size p' = permutation_problem.size p ∧
       (length (changed_positions (permutation_problem.pi_m p)
                  (permutation_problem.pi_m p')) ≤ 2 * k)%nat) ∧
  (2 ≤ permutation_problem.size p →
   eventually_distinct (permutation_problem.size p) →
   ∃ fuel p' rng',
     ∀ fuel', (fuel ≤ fuel')%nat →
       perturbate fuel' p k rng = Some (p', rng')).
Proof.
  intros Hperm. split.
  - intros fuel p' rng' Hrun.
    rewrite (perturbate_journal_erase fuel k p []) in Hrun.
    destruct (perturbate fuel (swap_journal.mk p []) k rng)
      as [[[q journal] g]|] eqn:Hj; [|done].
    simpl in Hrun. simplify_eq.
    destruct (perturbate_journal_post _ _ _ _ _ _ _ Hj)
      as (sw & Hcalls & Hk & Hsw & Hlen & Hp & Hkeep).
    simpl in Hcalls, Hlen, Hp, Hkeep. subst journal.
    exists sw. repeat split; try done.
    + unfold is_permutation in *. by rewrite Hlen, Hp.
    + unfold permutation_problem.size. by rewrite Hlen.
    + rewrite <- Hk, <- length_touched_positions.
      by apply changed_positions_bound.
  - intros Hsize Hfair.
    destruct (perturbate_terminates k p rng Hsize Hfair)
      as (fuel & [p' rng'] & Hrun).
    exists fuel, p', rng'. intros fuel' Hfuel.
    by apply (perturbate_mono _ _ _ _ _ _ Hrun).
Qed.

Lemma perturbate_swaps_witness :
  is_permutation [0; 1; 2; 3] ∧
  perturbate 0 (permutation_problem.mk [0; 1; 2; 3]) 2 (RoundRobin 5)
    = Some (permutation_problem.mk [3; 2; 1; 0], RoundRobin 9) ∧
  2 ≤ permutation_problem.size (permutation_problem.mk [0; 1; 2; 3]) ∧
  eventually_distinct (G := round_robin)
    (permutation_problem.size (permutation_problem.mk [0; 1; 2; 3])) ∧
  (∃ journal,
     perturbate 0 (swap_journal.mk (permutation_problem.mk [0; 1; 2; 3]) [])
       2 (RoundRobin 5) =
       Some (swap_journal.mk (permutation_problem.mk [3; 2; 1; 0]) journal,
             RoundRobin 9) ∧
     length journal = 2%nat ∧
     Forall (distinct_positions
               (permutation_problem.size (permutation_problem.mk [0; 1; 2; 3])))
       journal ∧
     is_permutation [3; 2; 1; 0] ∧
     permutation_problem.size (permutation_problem.mk [3; 2; 1; 0]) =
       permutation_problem.size (permutation_problem.mk [0; 1; 2; 3]) ∧
     (length (changed_positions [0; 1; 2; 3]%Z [3; 2; 1; 0]%Z) ≤ 2 * 2)%nat) ∧
  (∃ fuel p' rng',
     ∀ fuel', (fuel ≤ fuel')%nat →
       perturbate fuel' (permutation_problem.mk [0; 1; 2; 3]) 2 (RoundRobin 5)
         = Some (p', rng')).
Proof.
  assert (is_permutation [0; 1; 2; 3]) as Hperm by (by vm_compute).
  assert (perturbate 0 (permutation_problem.mk [0; 1; 2; 3]) 2 (RoundRobin 5)
          = Some (permutation_problem.mk [3; 2; 1; 0], RoundRobin 9)) as Hrun
    by reflexivity.
  assert (2 ≤ permutation_problem.size (permutation_problem.mk [0; 1; 2; 3]))
    as Hsize by (unfold permutation_problem.size; simpl; lia).
  assert (eventually_distinct (G := round_robin)
            (permutation_problem.size (permutation_problem.mk [0; 1; 2; 3])))
    as Hfair by (apply round_robin_eventually_distinct, Hsize).
  repeat (split; [assumption|]).
  pose proof (perturbate_swaps (permutation_problem.mk [0; 1; 2; 3]) 2
                (RoundRobin 5) Hperm) as [Hpost Hterm].
  split; [exact (Hpost _ _ _ Hrun)|exact (Hterm Hsize Hfair)].
Defined.

(** ** The stochastic swap neighbourhood *)

Section refresh_facts.
Context `{UniformIntSource G}.

Lemma randomize_move_unfold fuel m size (rng : G) :
  swap_neighborhood.randomize_move fuel m size rng =
    (let d1 := int_range rng size in
     let d2 := int_range d1.2 size in
     r ← redraw fuel d1.1 d2.1 size d2.2;
     Some (swap_elements.change m d1.1 r.1, r.2)).
Proof.
  unfold swap_neighborhood.randomize_move.
  destruct (int_range rng size) as [i g1]. simpl.
  destruct (int_range g1 size) as [j g2]. simpl.
  by destruct (redraw fuel i j size g2) as [[j' g3]|].
Qed.

Lemma randomize_move_mono fuel fuel' m size (rng : G) r :
  swap_neighborhood.randomize_move fuel m size rng = Some r →
  (fuel ≤ fuel')%nat →
  swap_neighborhood.randomize_move fuel' m size rng = Some r.
Proof.
  rewrite !randomize_move_unfold. cbv zeta. intros Hr Hle.
  destruct (redraw fuel _ _ _ _) as [d|] eqn:Hd; [|done].
  by rewrite (redraw_mono _ _ _ _ _ _ _ Hd Hle).
Qed.

Lemma randomize_slots_mono fuel fuel' slots size : ∀ (rng : G) r,
  swap_neighborhood.randomize_slots fuel slots size rng = Some r →
  (fuel ≤ fuel')%nat →
  swap_neighborhood.randomize_slots fuel' slots size rng = Some r.
Proof.
  induction slots as [|m slots IH]; intros rng r Hr Hle; [done|].
  cbn [swap_neighborhood.randomize_slots] in *.
  destruct (swap_neighborhood.randomize_move fuel _ _ _) as [[m' g1]|] eqn:Hm;
    [|done].
  rewrite (randomize_move_mono _ _ _ _ _ _ Hm Hle). simpl in *.
  destruct (swap_neighborhood.randomize_slots fuel _ _ _) as [[ms g2]|] eqn:Hs;
    [|done].
  by rewrite (IH _ _ Hs Hle).
Qed.

(** One slot: the move it is left with swaps two distinct positions, the
    lesser first. *)
Lemma randomize_move_post fuel m size (rng : G) m' rng' :
  0 < size →
  swap_neighborhood.randomize_move fuel m size rng = Some (m', rng') →
  swap_elements.p1 m' < swap_elements.p2 m' ∧
  distinct_positions size (swap_elements.p1 m', swap_elements.p2 m').
Proof.
  intros Hsize. rewrite randomize_move_unfold. cbv zeta. intros Hr.
  destruct (redraw fuel _ _ _ _) as [r|] eqn:Hd; [|done].
  simpl in Hr. simplify_eq.
  pose proof (int_range_bounds rng size Hsize) as Ha.
  pose proof (redraw_distinct _ _ _ _ _ _ Hd) as Hne.
  pose proof (redraw_range _ _ _ _ _ _ Hsize
                (int_range_bounds _ size Hsize) Hd) as Hb.
  unfold distinct_positions. simpl. lia.
Qed.

Lemma randomize_slots_post fuel slots size : ∀ (rng : G) slots' rng',
  0 < size →
  swap_neighborhood.randomize_slots fuel slots size rng
    = Some (slots', rng') →
  length slots' = length slots ∧
  Forall (λ m, swap_elements.p1 m < swap_elements.p2 m ∧
               distinct_positions size
                 (swap_elements.p1 m, swap_elements.p2 m)) slots'.
Proof.
  induction slots as [|m slots IH]; intros rng slots' rng' Hsize Hr.
  - simpl in Hr. by simplify_eq.
  - cbn [swap_neighborhood.randomize_slots] in Hr.
    destruct (swap_neighborhood.randomize_move fuel _ _ _)
      as [[m' g1]|] eqn:Hm; [|done].
    simpl in Hr.
    destruct (swap_neighborhood.randomize_slots fuel _ _ _)
      as [[ms g2]|] eqn:Hs; [|done].
    simpl in Hr. simplify_eq.
    destruct (IH _ _ _ Hsize Hs) as [Hlen Hall].
    split; [simpl; by rewrite Hlen|].
    constructor; [by eapply randomize_move_post|done].
Qed.

Lemma randomize_slots_terminates slots size : ∀ rng : G,
  0 < size → eventually_distinct size →
  ∃ fuel r, swap_neighborhood.randomize_slots fuel slots size rng = Some r.
Proof.
  induction slots as [|m slots IH]; intros rng Hsize Hfair.
  - exists 0%nat. simpl. eauto.
  - destruct (draw_two_distinct size rng Hsize Hfair)
      as (f1 & r & Hr & _).
    destruct (IH r.2 Hsize Hfair) as (f2 & [ms g2] & Hs).
    exists (f1 `max` f2)%nat. eexists.
    cbn [swap_neighborhood.randomize_slots].
    rewrite randomize_move_unfold. cbv zeta.
    rewrite (redraw_mono _ (f1 `max` f2)%nat _ _ _ _ _ Hr) by lia.
    simpl.
    by rewrite (randomize_slots_mono _ (f1 `max` f2)%nat _ _ _ _ Hs) by lia.
Qed.

End refresh_facts.

(** C4: for every solution [S] of size [n >= 2] and every
    [swap_neighborhood] of move count [m] (the one the constructor makes, or
    the one an earlier refresh left): after [refresh(S)] the neighbourhood
    holds exactly [m] moves, and each of them has [p1 != p2], in canonical
    order, both in [[0, n)].  And [refresh(S)] does return, the random
    source not staying on one position for ever. *)
Theorem refresh_publishes_moves `{UniformIntSource G} `{PermutationProblem P}
    (sn : swap_neighborhood.t G) (s : P) :
  2 ≤ pp_size s →
  (∀ fuel sn',
     swap_neighborhood.refresh fuel sn s = Some sn' →
     swap_neighborhood.n sn' = swap_neighborhood.n sn ∧
     swap_neighborhood.size sn' = Z.of_nat (swap_neighborhood.n sn) ∧
     length (move_manager.iterate (swap_neighborhood.base sn')) =
       swap_neighborhood.n sn ∧
     Forall (λ m, swap_elements.p1 m ≠ swap_elements.p2 m ∧
                  swap_elements.p1 m ≤ swap_elements.p2 m ∧
                  0 ≤ swap_elements.p1 m < pp_size s ∧
                  0 ≤ swap_elements.p2 m < pp_size s)
       (move_manager.iterate (swap_neighborhood.base sn'))) ∧
  (eventually_distinct (pp_size s) →
   ∃ fuel sn',
     ∀ fuel', (fuel ≤ fuel')%nat →
       swap_neighborhood.refresh fuel' sn s = Some sn').
Proof.
  intros Hsize. split.
  - intros fuel sn'. unfold swap_neighborhood.refresh. intros Hr.
    destruct (swap_neighborhood.randomize_slots fuel _ _ _)
      as [[moves rng']|] eqn:Hs; [|done].
    simpl in Hr. simplify_eq.
    assert (0 < pp_size s) as Hpos by lia.
    destruct (randomize_slots_post _ _ _ _ _ _ Hpos Hs) as [Hlen Hall].
    rewrite length_resize in Hlen.
    unfold swap_neighborhood.size, move_manager.size, move_manager.iterate.
    simpl. rewrite Hlen. repeat split.
    eapply Forall_impl; [exact Hall|].
    unfold distinct_positions. simpl. intros m. lia.
  - intros Hfair.
    destruct (randomize_slots_terminates
                (resize (swap_neighborhood.n sn) (swap_elements.ctor 0 0)
                   (move_manager.moves_m (swap_neighborhood.base sn)))
                (pp_size s) (swap_neighborhood.rng sn))
      as (fuel & [moves rng'] & Hrun); [lia|done|].
    exists fuel. eexists. intros fuel' Hfuel.
    unfold swap_neighborhood.refresh.
    by rewrite (randomize_slots_mono _ fuel' _ _ _ _ Hrun Hfuel).
Qed.

Lemma refresh_publishes_moves_witness :
  2 ≤ pp_size (permutation_problem.mk [0; 1; 2; 3]) ∧
  swap_neighborhood.refresh 0 (swap_neighborhood.ctor (RoundRobin 0) 3)
    (permutation_problem.mk [0; 1; 2; 3])
  = Some (swap_neighborhood.mk
            (move_manager.mk [swap_elements.mk 0 1; swap_elements.mk 2 3;
                              swap_elements.mk 0 1])
            (RoundRobin 6) 3) ∧
  eventually_distinct (G := round_robin)
    (pp_size (permutation_problem.mk [0; 1; 2; 3])) ∧
  (swap_neighborhood.size
     (swap_neighborhood.mk
        (move_manager.mk [swap_elements.mk 0 1; swap_elements.mk 2 3;
                          swap_elements.mk 0 1])
        (RoundRobin 6) 3) = 3 ∧
   Forall (λ m, swap_elements.p1 m ≠ swap_elements.p2 m ∧
                swap_elements.p1 m ≤ swap_elements.p2 m ∧
                0 ≤ swap_elements.p1 m < 4 ∧
                0 ≤ swap_elements.p2 m < 4)
     [swap_elements.mk 0 1; swap_elements.mk 2 3; swap_elements.mk 0 1]) ∧
  (∃ fuel sn',
     ∀ fuel', (fuel ≤ fuel')%nat →
       swap_neighborhood.refresh fuel'
         (swap_neighborhood.ctor (RoundRobin 0) 3)
         (permutation_problem.mk [0; 1; 2; 3]) = Some sn').
Proof.
  assert (2 ≤ pp_size (permutation_problem.mk [0; 1; 2; 3])) as Hsize
    by (simpl; unfold permutation_problem.size; simpl; lia).
  assert (swap_neighborhood.refresh 0 (swap_neighborhood.ctor (RoundRobin 0) 3)
            (permutation_problem.mk [0; 1; 2; 3])
          = Some (swap_neighborhood.mk
                    (move_manager.mk
                       [swap_elements.mk 0 1; swap_elements.mk 2 3;
                        swap_elements.mk 0 1])
                    (RoundRobin 6) 3)) as Hrun by reflexivity.
  assert (eventually_distinct (G := round_robin)
            (pp_size (permutation_problem.mk [0; 1; 2; 3]))) as Hfair
    by (apply round_robin_eventually_distinct, Hsize).
  repeat (split; [assumption|]).
  pose proof (refresh_publishes_moves
                (swap_neighborhood.ctor (RoundRobin 0) 3)
                (permutation_problem.mk [0; 1; 2; 3]) Hsize) as [Hpost Hterm].
  split; [|exact (Hterm Hfair)].
  destruct (Hpost _ _ Hrun) as (_ & Hsz & _ & Hall).
  split; [exact Hsz|exact Hall].
Defined.

(** ** Scenarios *)

(** [swap_elements(2,5)] and [swap_elements(5,2)]: one move, one hash. *)
Example swap_2_5_hash :
  swap_elements.ctor 2 5 = swap_elements.ctor 5 2 ∧
  swap_elements.hash (swap_elements.ctor 5 2) = 131077.
Proof. by vm_compute. Qed.

(** Three moves drawn by the round-robin source over a problem of size 4. *)
Example refresh_round_robin :
  swap_neighborhood.refresh 0 (swap_neighborhood.ctor (RoundRobin 0) 3)
    (permutation_problem.mk [0; 1; 2; 3])
  = Some (swap_neighborhood.mk
            (move_manager.mk [swap_elements.mk 0 1; swap_elements.mk 2 3;
                              swap_elements.mk 0 1])
            (RoundRobin 6) 3).
Proof. reflexivity. Qed.

(** Two rounds of [perturbate] with the same source, journalled. *)
Example perturbate_round_robin :
  perturbate 0 (swap_journal.mk (permutation_problem.mk [0; 1; 2; 3]) []) 2
    (RoundRobin 5)
  = Some (swap_journal.mk (permutation_problem.mk [3; 2; 1; 0])
            [(1, 2); (3, 0)], RoundRobin 9).
Proof. reflexivity. Qed.

(** * Further properties *)

(** ** [sequence] as a generator *)

(** X1: [std::generate] with [sequence(start)] fills a vector with [start],
    [start + 1], ..., one number per position, as long as these numbers are
    [int]s. *)
Theorem generate_sequence_from (v : list Z) (start : Z) :
  - 2 ^ 31 ≤ start → start + Z.of_nat (length v) ≤ 2 ^ 31 →
  generate v (sequence.ctor start) = seqZ start (Z.of_nat (length v)) ∧
  length (generate v (sequence.ctor start)) = length v.
Proof.
  intros Hs Hlen.
  assert (generate v (sequence.ctor start) = seqZ start (Z.of_nat (length v)))
    as Heq.
  { revert start Hs Hlen. induction v as [|x v IH]; intros start Hs Hlen.
    - done.
    - cbn [generate sequence.call sequence.ctor sequence.value_m length].
      rewrite seqZ_cons by lia. f_equal.
      replace (Z.pred (Z.of_nat (S (length v)))) with (Z.of_nat (length v))
        by lia.
      destruct v as [|y v]; [done|].
      cbn [length] in *. rewrite to_int_small by lia.
      apply (IH (start + 1)); cbn [length]; lia. }
  split; [exact Heq|]. rewrite Heq, length_seqZ. lia.
Qed.

Lemma generate_sequence_from_witness :
  - 2 ^ 31 ≤ -1 ∧ -1 + Z.of_nat (length [7; 7; 7]) ≤ 2 ^ 31 ∧
  generate [7; 7; 7] (sequence.ctor (-1)) = [-1; 0; 1].
Proof.
  assert (- 2 ^ 31 ≤ -1) as H1 by lia.
  assert (-1 + Z.of_nat (length [7; 7; 7]) ≤ 2 ^ 31) as H2 by (simpl; lia).
  repeat (split; [assumption|]).
  exact (proj1 (generate_sequence_from [7; 7; 7] (-1) H1 H2)).
Defined.

(** ** [permutation_problem::swap] *)

Lemma swap_sym p i j :
  permutation_problem.swap p i j = permutation_problem.swap p j i.
Proof.
  unfold permutation_problem.swap.
  destruct (at_index _ i) as [x|] eqn:Hx;
    destruct (at_index _ j) as [y|] eqn:Hy; simpl; try done.
  f_equal. f_equal.
  apply at_index_lookup in Hx as [Hi Hx]. apply at_index_lookup in Hy as [Hj Hy].
  destruct (decide (Z.to_nat i = Z.to_nat j)) as [Heq|Hne].
  - rewrite Heq in *. by simplify_eq.
  - by rewrite list_insert_insert_ne.
Qed.

(** X2: [swap(i, j)] on two positions of [pi_m] exchanges the two entries and
    leaves every other position as it was. *)
Theorem swap_exchanges (p : permutation_problem.t) (i j : Z) :
  0 ≤ i < permutation_problem.size p →
  0 ≤ j < permutation_problem.size p →
  ∃ p', permutation_problem.swap p i j = Some p' ∧
        permutation_problem.pi_m p' !! Z.to_nat i =
          permutation_problem.pi_m p !! Z.to_nat j ∧
        permutation_problem.pi_m p' !! Z.to_nat j =
          permutation_problem.pi_m p !! Z.to_nat i ∧
        (∀ k, k ≠ Z.to_nat i → k ≠ Z.to_nat j →
           permutation_problem.pi_m p' !! k = permutation_problem.pi_m p !! k).
Proof.
  intros Hi Hj.
  destruct (swap_Some p i j Hi Hj) as (x & y & Hx & Hy & Hs).
  eexists. split; [exact Hs|]. simpl.
  rewrite !(exchange_lookup _ _ _ _ _ _ Hx Hy). repeat split.
  - destruct (decide (Z.to_nat i = Z.to_nat j)) as [Heq|Hne].
    + rewrite Heq in *. congruence.
    + rewrite decide_True by done. done.
  - rewrite decide_True by done. done.
  - intros k Hki Hkj. rewrite (exchange_lookup _ _ _ _ _ _ Hx Hy).
    by rewrite !decide_False.
Qed.

Lemma swap_exchanges_witness :
  0 ≤ 0 < permutation_problem.size (permutation_problem.mk [5; 6; 7]) ∧
  0 ≤ 2 < permutation_problem.size (permutation_problem.mk [5; 6; 7]) ∧
  ∃ p', permutation_problem.swap (permutation_problem.mk [5; 6; 7]) 0 2
          = Some p' ∧
        permutation_problem.pi_m p' !! Z.to_nat 0 = Some 7 ∧
        permutation_problem.pi_m p' !! Z.to_nat 2 = Some 5 ∧
        (∀ k, k ≠ Z.to_nat 0 → k ≠ Z.to_nat 2 →
           permutation_problem.pi_m p' !! k = [5; 6; 7] !! k).
Proof.
  assert (0 ≤ 0 < permutation_problem.size (permutation_problem.mk [5; 6; 7]))
    as H0 by (unfold permutation_problem.size; simpl; lia).
  assert (0 ≤ 2 < permutation_problem.size (permutation_problem.mk [5; 6; 7]))
    as H2 by (unfold permutation_problem.size; simpl; lia).
  repeat (split; [assumption|]).
  exact (swap_exchanges (permutation_problem.mk [5; 6; 7]) 0 2 H0 H2).
Defined.

(** X3: [swap(i, j)] and [swap(j, i)] do the same, for all [int]s [i] and
    [j]: the same vector when both are positions, and an access outside the
    vector in both when one is not. *)
Theorem swap_symmetric (p : permutation_problem.t) (i j : Z) :
  permutation_problem.swap p i j = permutation_problem.swap p j i.
Proof. apply swap_sym. Qed.

(** X4: [swap(i, i)] on a position of [pi_m] changes nothing. *)
Theorem swap_same_position (p : permutation_problem.t) (i : Z) :
  0 ≤ i < permutation_problem.size p →
  permutation_problem.swap p i i = Some p.
Proof.
  intros Hi. destruct (swap_Some p i i Hi Hi) as (x & y & Hx & Hy & Hs).
  rewrite Hs. f_equal. destruct p as [l]. simpl in *. f_equal.
  rewrite list_insert_insert_eq. apply list_insert_id. congruence.
Qed.

Lemma swap_same_position_witness :
  0 ≤ 1 < permutation_problem.size (permutation_problem.mk [5; 6; 7]) ∧
  permutation_problem.swap (permutation_problem.mk [5; 6; 7]) 1 1
    = Some (permutation_problem.mk [5; 6; 7]).
Proof.
  assert (0 ≤ 1 < permutation_problem.size (permutation_problem.mk [5; 6; 7]))
    as H1 by (unfold permutation_problem.size; simpl; lia).
  split; [exact H1|].
  exact (swap_same_position (permutation_problem.mk [5; 6; 7]) 1 H1).
Defined.

(** X5: [swap(i, j)] stays inside [pi_m] exactly when [i] and [j] are both in
    [[0, size())]; a negative subscript never is. *)
Theorem swap_in_bounds (p : permutation_problem.t) (i j : Z) :
  is_Some (permutation_problem.swap p i j) ↔
  (0 ≤ i < permutation_problem.size p) ∧ (0 ≤ j < permutation_problem.size p).
Proof.
  split.
  - intros [p' Hs]. by eapply swap_inv.
  - intros [Hi Hj]. destruct (swap_Some p i j Hi Hj) as (x & y & _ & _ & Hs).
    by rewrite Hs.
Qed.

(** X6: when all entries of [pi_m] are different, as in a permutation, a
    [swap] of two distinct positions changes these two positions and no
    other: it is never a move that leaves the solution as it was. *)
Theorem swap_changes_both (p p' : permutation_problem.t) (i j : Z) :
  NoDup (permutation_problem.pi_m p) →
  i ≠ j →
  permutation_problem.swap p i j = Some p' →
  (∀ k, k ∈ changed_positions (permutation_problem.pi_m p)
              (permutation_problem.pi_m p')
        ↔ k = Z.to_nat i ∨ k = Z.to_nat j) ∧
  p' ≠ p.
Proof.
  intros Hnd Hij Hs. destruct (swap_inv _ _ _ _ Hs) as [Hi Hj].
  destruct (swap_Some p i j Hi Hj) as (x & y & Hx & Hy & Heq).
  rewrite Heq in Hs. injection Hs as <-. simpl.
  assert (Z.to_nat i ≠ Z.to_nat j) as Hne by lia.
  assert (x ≠ y) as Hxy.
  { intros ->. apply Hne. by eapply NoDup_lookup. }
  assert (∀ k, k ∈ changed_positions (permutation_problem.pi_m p)
                 (<[Z.to_nat j:=x]> (<[Z.to_nat i:=y]>
                    (permutation_problem.pi_m p)))
               ↔ k = Z.to_nat i ∨ k = Z.to_nat j) as Hchar.
  { intros k. unfold changed_positions.
    rewrite list_elem_of_filter, elem_of_seq.
    rewrite (exchange_lookup _ _ _ _ _ k Hx Hy).
    apply lookup_lt_Some in Hx as Hli. apply lookup_lt_Some in Hy as Hlj.
    repeat case_decide; subst; split; intros; destruct_and?;
      try (split; [congruence|lia]); try tauto; try congruence. }
  split; [exact Hchar|].
  intros Habs. destruct p as [l]. simpl in *. injection Habs as Habs.
  pose proof (proj2 (Hchar (Z.to_nat i)) (or_introl eq_refl)) as Hin.
  rewrite Habs in Hin. unfold changed_positions in Hin.
  apply list_elem_of_filter in Hin as [Hin _]. by apply Hin.
Qed.

Lemma swap_changes_both_witness :
  NoDup [5; 6; 7] ∧ (0 : Z) ≠ 2 ∧
  permutation_problem.swap (permutation_problem.mk [5; 6; 7]) 0 2
    = Some (permutation_problem.mk [7; 6; 5]) ∧
  (∀ k, k ∈ changed_positions [5; 6; 7] [7; 6; 5]
        ↔ k = Z.to_nat 0 ∨ k = Z.to_nat 2) ∧
  permutation_problem.mk [7; 6; 5] ≠ permutation_problem.mk [5; 6; 7].
Proof.
  assert (NoDup [5; 6; 7]) as Hnd.
  { repeat (apply NoDup_cons; split;
              [rewrite ?elem_of_cons, ?elem_of_nil; lia|]).
    apply NoDup_nil_2. }
  assert ((0 : Z) ≠ 2) as Hne by lia.
  assert (permutation_problem.swap (permutation_problem.mk [5; 6; 7]) 0 2
          = Some (permutation_problem.mk [7; 6; 5])) as Hs by reflexivity.
  repeat (split; [assumption|]).
  exact (swap_changes_both (permutation_problem.mk [5; 6; 7])
           (permutation_problem.mk [7; 6; 5]) 0 2 Hnd Hne Hs).
Defined.

Lemma exchange_commute (l : list Z) a b c d x y u v :
  a ≠ c → a ≠ d → b ≠ c → b ≠ d →
  <[d:=u]> (<[c:=v]> (<[b:=x]> (<[a:=y]> l))) =
  <[b:=x]> (<[a:=y]> (<[d:=u]> (<[c:=v]> l))).
Proof.
  intros Hac Had Hbc Hbd.
  rewrite (list_insert_insert_ne _ c b) by done.
  rewrite (list_insert_insert_ne _ d b) by done.
  rewrite (list_insert_insert_ne _ c a) by done.
  by rewrite (list_insert_insert_ne _ d a) by done.
Qed.

Lemma swap_size p i j p' :
  permutation_problem.swap p i j = Some p' →
  permutation_problem.size p' = permutation_problem.size p.
Proof.
  intros Hs. unfold permutation_problem.size.
  by rewrite (swap_length _ _ _ _ Hs).
Qed.

Lemma swap_None_after p i j q k l :
  permutation_problem.swap p i j = Some q →
  permutation_problem.swap p k l = None →
  permutation_problem.swap q k l = None.
Proof.
  intros Hq Hn.
  destruct (permutation_problem.swap q k l) as [r|] eqn:Hr; [|done].
  destruct (swap_inv _ _ _ _ Hr) as [Hk Hl].
  rewrite (swap_size _ _ _ _ Hq) in Hk, Hl.
  destruct (swap_Some p k l Hk Hl) as (? & ? & _ & _ & Hs). congruence.
Qed.

(** X7: two [swap]s that share no position can be done in either order:
    [swap(i, j); swap(k, l)] and [swap(k, l); swap(i, j)] leave the same
    [pi_m], and run outside the vector together. *)
Theorem swap_disjoint_commute (p : permutation_problem.t) (i j k l : Z) :
  i ≠ k → i ≠ l → j ≠ k → j ≠ l →
  (q ← permutation_problem.swap p i j; permutation_problem.swap q k l) =
  (q ← permutation_problem.swap p k l; permutation_problem.swap q i j).
Proof.
  intros Hik Hil Hjk Hjl.
  destruct (permutation_problem.swap p i j) as [q1|] eqn:H1;
    destruct (permutation_problem.swap p k l) as [q2|] eqn:H2; simpl.
  - destruct (swap_inv _ _ _ _ H1) as [Hi Hj].
    destruct (swap_inv _ _ _ _ H2) as [Hk Hl].
    destruct (swap_Some p i j Hi Hj) as (x & y & Hx & Hy & E1).
    destruct (swap_Some p k l Hk Hl) as (u & v & Hu & Hv & E2).
    rewrite E1 in H1. rewrite E2 in H2. simplify_eq.
    unfold permutation_problem.swap. simpl.
    assert (∀ a b : Z, 0 ≤ a → 0 ≤ b → a ≠ b → Z.to_nat a ≠ Z.to_nat b)
      as Hnat by lia.
    assert (at_index (<[Z.to_nat j:=x]> (<[Z.to_nat i:=y]>
                        (permutation_problem.pi_m p))) k = Some u) as ->.
    { apply at_index_lookup. split; [lia|].
      rewrite !list_lookup_insert_ne by (apply Hnat; lia). done. }
    assert (at_index (<[Z.to_nat j:=x]> (<[Z.to_nat i:=y]>
                        (permutation_problem.pi_m p))) l = Some v) as ->.
    { apply at_index_lookup. split; [lia|].
      rewrite !list_lookup_insert_ne by (apply Hnat; lia). done. }
    assert (at_index (<[Z.to_nat l:=u]> (<[Z.to_nat k:=v]>
                        (permutation_problem.pi_m p))) i = Some x) as ->.
    { apply at_index_lookup. split; [lia|].
      rewrite !list_lookup_insert_ne by (apply Hnat; lia). done. }
    assert (at_index (<[Z.to_nat l:=u]> (<[Z.to_nat k:=v]>
                        (permutation_problem.pi_m p))) j = Some y) as ->.
    { apply at_index_lookup. split; [lia|].
      rewrite !list_lookup_insert_ne by (apply Hnat; lia). done. }
    simpl. do 2 f_equal. apply exchange_commute; apply Hnat; lia.
  - by eapply swap_None_after.
  - symmetry. by eapply swap_None_after.
  - done.
Qed.

Lemma swap_disjoint_commute_witness :
  (0 : Z) ≠ 1 ∧ (0 : Z) ≠ 3 ∧ (2 : Z) ≠ 1 ∧ (2 : Z) ≠ 3 ∧
  (q ← permutation_problem.swap (permutation_problem.mk [5; 6; 7; 8]) 0 2;
   permutation_problem.swap q 1 3) =
  (q ← permutation_problem.swap (permutation_problem.mk [5; 6; 7; 8]) 1 3;
   permutation_problem.swap q 0 2).
Proof.
  assert ((0 : Z) ≠ 1) as H1 by lia. assert ((0 : Z) ≠ 3) as H2 by lia.
  assert ((2 : Z) ≠ 1) as H3 by lia. assert ((2 : Z) ≠ 3) as H4 by lia.
  repeat (split; [assumption|]).
  exact (swap_disjoint_commute (permutation_problem.mk [5; 6; 7; 8])
           0 2 1 3 H1 H2 H3 H4).
Defined.

(** ** The invariant of [permutation_problem] *)

Lemma ctor_Some n p :
  permutation_problem.ctor n = Some p →
  0 ≤ n ∧ (n ≤ INT_MAX → permutation_problem.pi_m p = seqZ 0 n).
Proof.
  unfold permutation_problem.ctor, vector_of_size.
  destruct (decide (0 ≤ n)) as [Hn|]; [|done]. simpl. intros [= <-].
  split; [done|]. unfold INT_MAX. intros Hmax. simpl.
  rewrite generate_sequence; rewrite ?length_replicate, ?Z2Nat.id; try lia.
  done.
Qed.

Lemma perturbate_Permutation `{UniformIntSource G}
    fuel (p : permutation_problem.t) k (rng : G) p' rng' :
  perturbate fuel p k rng = Some (p', rng') →
  permutation_problem.pi_m p' ≡ₚ permutation_problem.pi_m p ∧
  length (permutation_problem.pi_m p') = length (permutation_problem.pi_m p).
Proof.
  intros Hrun. rewrite (perturbate_journal_erase fuel k p []) in Hrun.
  destruct (perturbate fuel (swap_journal.mk p []) k rng)
    as [[[q journal] g]|] eqn:Hj; [|done].
  simpl in Hrun. simplify_eq.
  destruct (perturbate_journal_post _ _ _ _ _ _ _ Hj)
    as (sw & _ & _ & _ & Hlen & Hp & _).
  done.
Qed.

(** X8: the invariant the class documents.  Whatever sequence of [swap] and
    [perturbate] calls a problem made by [permutation_problem(n)] went
    through, [pi_m] is a permutation of [0..n-1] and [size()] is [n]. *)
Theorem permutation_problem_invariant (n : Z) (p : permutation_problem.t) :
  n ≤ INT_MAX →
  permutation_problem_reachable n p →
  is_permutation (permutation_problem.pi_m p) ∧
  permutation_problem.size p = n.
Proof.
  intros Hmax Hr. unfold is_permutation, permutation_problem.size.
  induction Hr as [p Hc|p i j p' _ [IHp IHn] Hs
                  |G HG p fuel k rng p' rng' _ [IHp IHn] Hrun].
  - destruct (ctor_Some _ _ Hc) as [Hn Hpi]. rewrite (Hpi Hmax).
    rewrite length_seqZ, Z2Nat.id by done. done.
  - rewrite (swap_length _ _ _ _ Hs), (swap_Permutation _ _ _ _ Hs). done.
  - destruct (perturbate_Permutation _ _ _ _ _ _ Hrun) as [Hp Hlen].
    rewrite Hlen, Hp. done.
Qed.

Lemma permutation_problem_invariant_witness :
  3 ≤ INT_MAX ∧
  permutation_problem_reachable 3 (permutation_problem.mk [2; 1; 0]) ∧
  is_permutation [2; 1; 0] ∧
  permutation_problem.size (permutation_problem.mk [2; 1; 0]) = 3.
Proof.
  assert (3 ≤ INT_MAX) as Hmax by (unfold INT_MAX; lia).
  assert (permutation_problem_reachable 3 (permutation_problem.mk [2; 1; 0]))
    as Hr.
  { apply (problem_swap 3 (permutation_problem.mk [0; 1; 2]) 0 2);
      [by apply problem_new|done]. }
  repeat (split; [assumption|]).
  exact (permutation_problem_invariant 3 (permutation_problem.mk [2; 1; 0])
           Hmax Hr).
Defined.

(** ** [swap_elements::apply] *)

(** X9: applying [swap_elements(from, to)] is [swap(from, to)], in whichever
    order the two arguments were given: storing them as least and greatest
    does not change what the move does. *)
Theorem swap_elements_apply_is_swap (from to : Z) (p : permutation_problem.t) :
  swap_elements.apply (swap_elements.ctor from to) p =
    permutation_problem.swap p from to ∧
  (∀ m, swap_elements.apply (swap_elements.change m from to) p =
          permutation_problem.swap p from to).
Proof.
  assert (permutation_problem.swap p (Z.min from to) (Z.max from to) =
          permutation_problem.swap p from to) as Heq.
  { destruct (Z.le_gt_cases from to) as [Hle|Hgt].
    - by rewrite Z.min_l, Z.max_r by lia.
    - rewrite Z.min_r, Z.max_l by lia. apply swap_sym. }
  split; [exact Heq|]. intros m. exact Heq.
Qed.

(** ** The hash of a move *)

Lemma lxor_low_bits c b :
  0 ≤ b < 2 ^ 16 → Z.lxor (c * 2 ^ 16) b = c * 2 ^ 16 + b.
Proof.
  intros Hb. symmetry. apply Z.add_nocarry_lxor.
  apply Z.bits_inj'. intros n Hn. rewrite Z.land_spec, Z.bits_0.
  destruct (Z.lt_ge_cases n 16) as [Hlow|Hhigh].
  - by rewrite Z.mul_pow2_bits_low.
  - destruct (decide (b = 0)) as [->|Hb0].
    + by rewrite Z.bits_0, andb_false_r.
    + rewrite (Z.bits_above_log2 b n), andb_false_r; [done|lia|].
      assert (Z.log2 b < 16) by (apply Z.log2_lt_pow2; lia). lia.
Qed.

(** The value of [(p1)<<16^(p2)] as a [size_t], for positions below
    [2^16]: [p1], reduced to a signed 16-bit number, in bits 16 and above,
    [p2] in the bits below. *)
Lemma move_hash_value p1 p2 :
  0 ≤ p1 < 2 ^ 16 → 0 ≤ p2 < 2 ^ 16 →
  ∃ q, (q = 0 ∨ q = 1) ∧
       - 2 ^ 15 ≤ p1 - 2 ^ 16 * q < 2 ^ 15 ∧
       to_size_t (Z.lxor (to_int (Z.shiftl p1 16)) p2) =
         ((p1 - 2 ^ 16 * q) * 2 ^ 16 + p2) mod 2 ^ 64.
Proof.
  intros H1 H2. rewrite Z.shiftl_mul_pow2 by lia.
  exists ((p1 * 2 ^ 16 + 2 ^ 31) `div` 2 ^ 32).
  set (q := (p1 * 2 ^ 16 + 2 ^ 31) `div` 2 ^ 32).
  pose proof (Z.div_mod (p1 * 2 ^ 16 + 2 ^ 31) (2 ^ 32) ltac:(lia)) as Hdm.
  pose proof (Z.mod_pos_bound (p1 * 2 ^ 16 + 2 ^ 31) (2 ^ 32) ltac:(lia))
    as Hbound.
  fold q in Hdm.
  assert (to_int (p1 * 2 ^ 16) = (p1 - 2 ^ 16 * q) * 2 ^ 16) as Hto
    by (unfold to_int; lia).
  assert (q = 0 ∨ q = 1) as Hq by lia.
  split; [exact Hq|]. split; [unfold to_int in Hto; lia|].
  unfold to_size_t. by rewrite Hto, lxor_low_bits.
Qed.

Lemma move_hash_injective p1 p2 p1' p2' :
  0 ≤ p1 < 2 ^ 16 → 0 ≤ p2 < 2 ^ 16 →
  0 ≤ p1' < 2 ^ 16 → 0 ≤ p2' < 2 ^ 16 →
  to_size_t (Z.lxor (to_int (Z.shiftl p1 16)) p2) =
    to_size_t (Z.lxor (to_int (Z.shiftl p1' 16)) p2') →
  p1 = p1' ∧ p2 = p2'.
Proof.
  intros H1 H2 H1' H2'.
  destruct (move_hash_value p1 p2 H1 H2) as (q & Hq & Hc & ->).
  destruct (move_hash_value p1' p2' H1' H2') as (q' & Hq' & Hc' & ->).
  intros Heq.
  pose proof (Z.div_mod ((p1 - 2 ^ 16 * q) * 2 ^ 16 + p2) (2 ^ 64)
                ltac:(lia)) as E.
  pose proof (Z.mod_pos_bound ((p1 - 2 ^ 16 * q) * 2 ^ 16 + p2) (2 ^ 64)
                ltac:(lia)) as B.
  pose proof (Z.div_mod ((p1' - 2 ^ 16 * q') * 2 ^ 16 + p2') (2 ^ 64)
                ltac:(lia)) as E'.
  pose proof (Z.mod_pos_bound ((p1' - 2 ^ 16 * q') * 2 ^ 16 + p2') (2 ^ 64)
                ltac:(lia)) as B'.
  rewrite Heq in E, B. lia.
Qed.

(** X10: two [swap_elements] moves over positions below [2^16] that have the
    same hash are the same move: up to 65536 elements the hash tells all swap
    moves apart.  For [p1] below [2^15] the hash is [p1 * 65536 + p2]. *)
Theorem swap_elements_hash_injective (m1 m2 : swap_elements.t) :
  0 ≤ swap_elements.p1 m1 < 2 ^ 16 → 0 ≤ swap_elements.p2 m1 < 2 ^ 16 →
  0 ≤ swap_elements.p1 m2 < 2 ^ 16 → 0 ≤ swap_elements.p2 m2 < 2 ^ 16 →
  (swap_elements.hash m1 = swap_elements.hash m2 → m1 = m2) ∧
  (swap_elements.p1 m1 < 2 ^ 15 →
   swap_elements.hash m1 =
     swap_elements.p1 m1 * 65536 + swap_elements.p2 m1).
Proof.
  intros H1 H2 H1' H2'. split.
  - unfold swap_elements.hash. intros Heq.
    destruct (move_hash_injective _ _ _ _ H1 H2 H1' H2' Heq) as [Ha Hb].
    destruct m1, m2. simpl in *. by subst.
  - intros Hsmall. unfold swap_elements.hash.
    destruct (move_hash_value _ _ H1 H2) as (q & Hq & Hc & ->).
    rewrite Z.mod_small by lia. lia.
Qed.

Lemma swap_elements_hash_injective_witness :
  0 ≤ swap_elements.p1 (swap_elements.ctor 7 3) < 2 ^ 16 ∧
  0 ≤ swap_elements.p2 (swap_elements.ctor 7 3) < 2 ^ 16 ∧
  0 ≤ swap_elements.p1 (swap_elements.ctor 3 7) < 2 ^ 16 ∧
  0 ≤ swap_elements.p2 (swap_elements.ctor 3 7) < 2 ^ 16 ∧
  swap_elements.p1 (swap_elements.ctor 7 3) < 2 ^ 15 ∧
  swap_elements.hash (swap_elements.ctor 7 3) = 3 * 65536 + 7.
Proof.
  assert (0 ≤ swap_elements.p1 (swap_elements.ctor 7 3) < 2 ^ 16) as H1
    by (simpl; lia).
  assert (0 ≤ swap_elements.p2 (swap_elements.ctor 7 3) < 2 ^ 16) as H2
    by (simpl; lia).
  assert (0 ≤ swap_elements.p1 (swap_elements.ctor 3 7) < 2 ^ 16) as H3
    by (simpl; lia).
  assert (0 ≤ swap_elements.p2 (swap_elements.ctor 3 7) < 2 ^ 16) as H4
    by (simpl; lia).
  assert (swap_elements.p1 (swap_elements.ctor 7 3) < 2 ^ 15) as H5
    by (simpl; lia).
  repeat (split; [assumption|]).
  exact (proj2 (swap_elements_hash_injective (swap_elements.ctor 7 3)
                  (swap_elements.ctor 3 7) H1 H2 H3 H4) H5).
Defined.

(** X11: [invert_subsequence] keeps the direction of its arguments: over
    positions below [2^16], [invert_subsequence(a, b)] and
    [invert_subsequence(b, a)] with [a != b] are different moves with
    different hashes, after the constructor and after [change]. *)
Theorem invert_subsequence_direction (a b : Z) :
  0 ≤ a < 2 ^ 16 → 0 ≤ b < 2 ^ 16 → a ≠ b →
  invert_subsequence.ctor a b ≠ invert_subsequence.ctor b a ∧
  invert_subsequence.hash (invert_subsequence.ctor a b) ≠
    invert_subsequence.hash (invert_subsequence.ctor b a) ∧
  (∀ m, invert_subsequence.hash (invert_subsequence.change m a b) ≠
        invert_subsequence.hash (invert_subsequence.change m b a)).
Proof.
  intros Ha Hb Hne.
  assert (invert_subsequence.hash (invert_subsequence.ctor a b) ≠
          invert_subsequence.hash (invert_subsequence.ctor b a)) as Hh.
  { unfold invert_subsequence.hash. simpl. intros Heq.
    by destruct (move_hash_injective _ _ _ _ Ha Hb Hb Ha Heq). }
  split; [|split; [exact Hh|intros m; exact Hh]].
  intros [= ? ?]. done.
Qed.

Lemma invert_subsequence_direction_witness :
  0 ≤ 2 < 2 ^ 16 ∧ 0 ≤ 5 < 2 ^ 16 ∧ (2 : Z) ≠ 5 ∧
  invert_subsequence.hash (invert_subsequence.ctor 2 5) ≠
    invert_subsequence.hash (invert_subsequence.ctor 5 2).
Proof.
  assert (0 ≤ 2 < 2 ^ 16) as H1 by lia.
  assert (0 ≤ 5 < 2 ^ 16) as H2 by lia.
  assert ((2 : Z) ≠ 5) as H3 by lia.
  repeat (split; [assumption|]).
  exact (proj1 (proj2 (invert_subsequence_direction 2 5 H1 H2 H3))).
Defined.

(** ** More on [perturbate] *)

(** X12: perturbing with [k1 + k2] swaps is perturbing with [k1] swaps and
    then, with the generator as the first call left it, with [k2] swaps: for
    every kind of problem and every random source. *)
Theorem perturbate_add `{UniformIntSource G} `{PermutationProblem P}
    (fuel : nat) (p : P) (k1 k2 : nat) (rng : G) :
  perturbate fuel p (k1 + k2) rng =
    (r ← perturbate fuel p k1 rng; perturbate fuel r.1 k2 r.2).
Proof.
  revert p rng. induction k1 as [|k1 IH]; intros p rng; [done|].
  change (S k1 + k2)%nat with (S (k1 + k2)).
  rewrite !perturbate_S. cbv zeta.
  destruct (redraw fuel _ _ _ _) as [d|]; [|done]. simpl.
  destruct (pp_swap p _ _) as [p'|]; [|done]. simpl. apply IH.
Qed.

Lemma redraw_single_position `{UniformIntSource G} fuel : ∀ rng : G,
  redraw fuel 0 0 1 rng = None.
Proof.
  induction fuel as [|fuel IH]; intros rng; [done|].
  simpl. pose proof (int_range_bounds rng 1 ltac:(lia)) as Hb.
  destruct (int_range rng 1) as [v rng']. simpl in Hb.
  assert (v = 0) as -> by lia. apply IH.
Qed.

(** X13: on a problem with a single position, [perturbate] with one swap or
    more to make never returns, for any random source and any number of
    turns: the first draw is position 0 and so is every re-draw. *)
Theorem perturbate_single_position `{UniformIntSource G} `{PermutationProblem P}
    (fuel : nat) (p : P) (k : nat) (rng : G) :
  pp_size p = 1 →
  perturbate fuel p (S k) rng = None.
Proof.
  intros Hsize. rewrite perturbate_S. cbv zeta. rewrite Hsize.
  pose proof (int_range_bounds rng 1 ltac:(lia)) as Ha.
  pose proof (int_range_bounds (int_range rng 1).2 1 ltac:(lia)) as Hb.
  destruct (int_range rng 1) as [a g1]. simpl in *.
  destruct (int_range g1 1) as [b g2]. simpl in *.
  assert (a = 0) as -> by lia. assert (b = 0) as -> by lia.
  by rewrite redraw_single_position.
Qed.

Lemma perturbate_single_position_witness :
  pp_size (permutation_problem.mk [0]) = 1 ∧
  perturbate 1000 (permutation_problem.mk [0]) 3 (RoundRobin 42) = None.
Proof.
  assert (pp_size (permutation_problem.mk [0]) = 1) as Hsize by reflexivity.
  split; [exact Hsize|].
  exact (perturbate_single_position 1000 (permutation_problem.mk [0]) 2
           (RoundRobin 42) Hsize).
Defined.

Lemma perturbate_journal_replay `{UniformIntSource G} fuel k :
  ∀ (p : permutation_problem.t) (cs : list (Z * Z)) (rng : G) j' rng',
  perturbate fuel (swap_journal.mk p cs) k rng = Some (j', rng') →
  ∃ sw, swap_journal.calls j' = cs ++ sw ∧
        swap_all p sw = Some (swap_journal.problem j').
Proof.
  induction k as [|k IH]; intros p cs rng j' rng' Hr.
  - simpl in Hr. simplify_eq. exists []. simpl. by rewrite app_nil_r.
  - rewrite perturbate_S in Hr. cbv zeta in Hr.
    change (pp_size (swap_journal.mk p cs))
      with (permutation_problem.size p) in Hr.
    set (a := (int_range rng (permutation_problem.size p)).1) in *.
    destruct (redraw fuel _ _ _ _) as [r|] eqn:Hd; [|done]. simpl in Hr.
    unfold swap_journal.swap in Hr. simpl in Hr.
    destruct (permutation_problem.swap p a r.1) as [p1|] eqn:Hs; [|done].
    simpl in Hr.
    destruct (IH _ _ _ _ _ Hr) as (sw & Hcalls & Hall).
    exists ((a, r.1) :: sw). split.
    + by rewrite Hcalls, <- app_assoc.
    + simpl. by rewrite Hs.
Qed.

(** X14: [perturbate] does nothing to the problem but its swaps: doing the
    journalled [swap] calls, in order, on the problem as it was gives the
    problem as [perturbate] left it. *)
Theorem perturbate_is_its_swaps `{UniformIntSource G}
    (fuel : nat) (p p' : permutation_problem.t) (k : nat) (rng rng' : G) :
  perturbate fuel p k rng = Some (p', rng') →
  ∃ journal,
    perturbate fuel (swap_journal.mk p []) k rng =
      Some (swap_journal.mk p' journal, rng') ∧
    swap_all p journal = Some p'.
Proof.
  intros Hrun. rewrite (perturbate_journal_erase fuel k p []) in Hrun.
  destruct (perturbate fuel (swap_journal.mk p []) k rng)
    as [[[q journal] g]|] eqn:Hj; [|done].
  simpl in Hrun. simplify_eq.
  destruct (perturbate_journal_replay _ _ _ _ _ _ _ Hj) as (sw & Hcalls & Hall).
  simpl in Hcalls, Hall. subst journal. by exists sw.
Qed.

Lemma perturbate_is_its_swaps_witness :
  perturbate 0 (permutation_problem.mk [0; 1; 2; 3]) 2 (RoundRobin 5)
    = Some (permutation_problem.mk [3; 2; 1; 0], RoundRobin 9) ∧
  ∃ journal,
    perturbate 0 (swap_journal.mk (permutation_problem.mk [0; 1; 2; 3]) []) 2
      (RoundRobin 5) =
      Some (swap_journal.mk (permutation_problem.mk [3; 2; 1; 0]) journal,
            RoundRobin 9) ∧
    swap_all (permutation_problem.mk [0; 1; 2; 3]) journal =
      Some (permutation_problem.mk [3; 2; 1; 0]).
Proof.
  assert (perturbate 0 (permutation_problem.mk [0; 1; 2; 3]) 2 (RoundRobin 5)
          = Some (permutation_problem.mk [3; 2; 1; 0], RoundRobin 9)) as Hrun
    by reflexivity.
  split; [exact Hrun|].
  exact (perturbate_is_its_swaps 0 _ _ 2 _ _ Hrun).
Defined.

Lemma swap_all_app p sw1 sw2 :
  swap_all p (sw1 ++ sw2) = (q ← swap_all p sw1; swap_all q sw2).
Proof.
  revert p. induction sw1 as [|[i j] sw1 IH]; intros p; [done|].
  simpl. destruct (permutation_problem.swap p i j) as [q|]; [|done].
  simpl. apply IH.
Qed.

Lemma swap_all_reverse sw : ∀ p p',
  swap_all p sw = Some p' → swap_all p' (reverse sw) = Some p.
Proof.
  induction sw as [|[i j] sw IH]; intros p p' Hs; simpl in Hs.
  - by simplify_eq.
  - destruct (permutation_problem.swap p i j) as [q|] eqn:Hq; [|done].
    simpl in Hs. rewrite reverse_cons, swap_all_app, (IH _ _ Hs). simpl.
    by rewrite (swap_twice _ _ _ _ Hq).
Qed.

(** X15: a perturbation can be taken back: doing the journalled [swap]
    calls once more, last call first, on the problem as [perturbate] left it
    gives the problem as it was. *)
Theorem perturbate_undo `{UniformIntSource G}
    (fuel : nat) (p : permutation_problem.t) (k : nat) (rng rng' : G)
    (after : swap_journal.t) :
  perturbate fuel (swap_journal.mk p []) k rng = Some (after, rng') →
  swap_all (swap_journal.problem after) (reverse (swap_journal.calls after))
    = Some p.
Proof.
  intros Hrun.
  destruct (perturbate_journal_replay _ _ _ _ _ _ _ Hrun)
    as (sw & Hcalls & Hall).
  simpl in Hcalls. rewrite Hcalls. by apply swap_all_reverse.
Qed.

Lemma perturbate_undo_witness :
  perturbate 0 (swap_journal.mk (permutation_problem.mk [0; 1; 2; 3]) []) 2
    (RoundRobin 5)
  = Some (swap_journal.mk (permutation_problem.mk [3; 2; 1; 0])
            [(1, 2); (3, 0)], RoundRobin 9) ∧
  swap_all (permutation_problem.mk [3; 2; 1; 0]) (reverse [(1, 2); (3, 0)])
    = Some (permutation_problem.mk [0; 1; 2; 3]).
Proof.
  assert (perturbate 0
            (swap_journal.mk (permutation_problem.mk [0; 1; 2; 3]) []) 2
            (RoundRobin 5)
          = Some (swap_journal.mk (permutation_problem.mk [3; 2; 1; 0])
                    [(1, 2); (3, 0)], RoundRobin 9)) as Hrun by reflexivity.
  split; [exact Hrun|].
  exact (perturbate_undo 0 _ 2 _ _ _ Hrun).
Defined.

(** Past [2^16] the hash no longer tells swap moves apart. *)
Example swap_elements_hash_collision :
  swap_elements.hash (swap_elements.ctor 0 65538) =
    swap_elements.hash (swap_elements.ctor 1 2).
Proof. reflexivity. Qed.
